(** * santerijps/tokenizer: a shallow embedding of [src/index.ts]

    The embedding follows the TypeScript source function by function.
    JavaScript strings are modelled as [string] (a sequence of code
    units), JavaScript numbers that hold indices and counters as [Z].
    The generator [token_iterator] is modelled by its suspension states
    and a total [next] operation; the loops that drain a generator
    ([Array.from], [TokenStream.next]) are unbounded in the source and
    take an explicit bound on the number of pulls here. *)

From Stdlib Require Import ZArith String Ascii List Bool Lia Sorted.
From Equations Require Import Equations.
Import ListNotations.

Open Scope string_scope.
Open Scope Z_scope.

(** ** The JavaScript primitives the source calls *)

Module JS.

(** [s.length] *)
Definition length (s : string) : Z := Z.of_nat (String.length s).

(** The string without its first [n] code units. *)
Fixpoint drop (n : nat) (s : string) : string :=
  match n, s with
  | O, _ => s
  | S _, EmptyString => EmptyString
  | S n', String _ s' => drop n' s'
  end.

(** [text.slice(i)]: a negative start counts from the end, and the start
    is clamped to [0 .. text.length]. *)
Definition slice (text : string) (i : Z) : string :=
  let from := if i <? 0 then Z.max (length text + i) 0
              else Z.min i (length text) in
  drop (Z.to_nat from) text.

(** [text.startsWith(search)] *)
Definition startsWith (text search : string) : bool :=
  String.prefix search text.

(** [text[i]] for a loop index [i]; [None] stands for [undefined]. *)
Definition char_at (text : string) (i : nat) : option ascii :=
  String.get i text.

(** [c === "\n"] for the result of an index access. *)
Definition is_newline (c : option ascii) : bool :=
  match c with
  | Some a => Ascii.eqb a "010"%char
  | None => false
  end.

(** [types.includes(t)] on an array of strings. *)
Definition includes (types : list string) (t : string) : bool :=
  existsb (String.eqb t) types.

(** A regular expression without the [g] and [y] flags, so that [exec]
    keeps no state between calls. The pattern is given by the length of
    its match at each start index of a text, if it matches there. *)
Record RegExp := { matches_at : string -> nat -> option nat }.

(** The value of [r.exec(text)] as far as the source reads it:
    [index] and element [0] of the match array. *)
Record ExecResult := { index : Z; match0 : string }.

(** Start indices are tried from left to right; [todo] counts the indices
    still to try, the last of which is the end of the text. *)
Fixpoint exec_from (r : RegExp) (text : string) (todo k : nat)
  : option ExecResult :=
  match todo with
  | O => None
  | S todo' =>
      match matches_at r text k with
      | Some len =>
          Some {| index := Z.of_nat k; match0 := String.substring k len text |}
      | None => exec_from r text todo' (S k)
      end
  end.

(** [r.exec(text)]: the leftmost match, or [None] for [null]. *)
Definition exec (r : RegExp) (text : string) : option ExecResult :=
  exec_from r text (S (String.length text)) 0.

(** What a generator's [next] and [return] hand back: a yielded value, or
    [{value: undefined, done: true}]. *)
Inductive IteratorResult (A : Type) : Type :=
| Yield (value : A)
| Done.
Arguments Yield {A} value.
Arguments Done {A}.

End JS.

(** ** Types of [src/index.ts] *)

Definition TokenMatcherFunction := string -> option string.

Inductive TokenMatcher : Type :=
| MString (literal : string)
| MRegExp (r : JS.RegExp)
| MFunction (f : TokenMatcherFunction).

(** [Record<T, TokenMatcher>], held as the list of entries that
    [Object.entries] enumerates, in that order. *)
Definition TokenSpecification := list (string * TokenMatcher).

Record Token := { type : string; value : string; line : Z; column : Z }.

(** ** [match_start_of_text] *)

Definition match_start_of_text (text : string) (matcher : TokenMatcher)
  : option string :=
  match matcher with
  | MString literal =>
      if JS.startsWith text literal then Some literal else None
  | MRegExp r =>
      match JS.exec r text with
      | Some m => if JS.index m =? 0 then Some (JS.match0 m) else None
      | None => None
      end
  | MFunction f => f text
  end.

(** ** [get_line_and_column] *)

Definition line_column_step (text : string) (lc : Z * Z) (i : nat) : Z * Z :=
  let (line, column) := lc in
  if JS.is_newline (JS.char_at text i) then (line + 1, 1)
  else (line, column + 1).

Definition get_line_and_column (text : string) (index : Z) : Z * Z :=
  fold_left (line_column_step text) (seq 0 (Z.to_nat index)) (1, 1).

(** ** [token_iterator] *)

(** Where the generator is suspended. At the [yield] it keeps the loop
    variable [i] and the match, which the statement after the [yield]
    reads. *)
Inductive GenState : Type :=
| SuspendedStart
| SuspendedYield (i : Z) (m : string)
| Completed.

(** The inner [for ... of] loop at position [i]: the token of the first
    entry whose matcher matches. *)
Fixpoint for_entries (entries : TokenSpecification) (text : string) (i : Z)
  : option Token :=
  match entries with
  | [] => None
  | (type, matcher) :: entries' =>
      let slice := JS.slice text i in
      match match_start_of_text slice matcher with
      | Some m =>
          let (line, column) := get_line_and_column text i in
          Some {| type := type; value := m; line := line; column := column |}
      | None => for_entries entries' text i
      end
  end.

(** The outer [for] loop entered with loop variable [i], run up to the next
    [yield] or to the end of the function. *)
Equations? for_loop (text : string) (token_spec : TokenSpecification) (i : Z)
  : JS.IteratorResult Token * GenState
  by wf (Z.to_nat (JS.length text - i)) lt :=
  for_loop text token_spec i with Z_lt_dec i (JS.length text) => {
    | left _ with for_entries token_spec text i => {
        | Some token => (JS.Yield token, SuspendedYield i (value token));
        | None => for_loop text token_spec (i + 1) };
    | right _ => (JS.Done, Completed) }.
Proof. lia. Qed.

(** Resuming after the [yield]: [i += match.length - 1], [break], and the
    outer loop's [i++]. *)
Definition resume (text : string) (token_spec : TokenSpecification)
  (i : Z) (m : string) : JS.IteratorResult Token * GenState :=
  let i := i + (JS.length m - 1) in
  for_loop text token_spec (i + 1).

Record Generator := {
  gen_text : string;
  gen_spec : TokenSpecification;
  gen_state : GenState
}.

Definition token_iterator (text : string) (token_spec : TokenSpecification)
  : Generator :=
  {| gen_text := text; gen_spec := token_spec; gen_state := SuspendedStart |}.

Definition with_state (g : Generator) (st : GenState) : Generator :=
  {| gen_text := gen_text g; gen_spec := gen_spec g; gen_state := st |}.

(** [iterator.next()] *)
Definition gen_next (g : Generator) : JS.IteratorResult Token * Generator :=
  let (result, st) :=
    match gen_state g with
    | SuspendedStart => for_loop (gen_text g) (gen_spec g) 0
    | SuspendedYield i m => resume (gen_text g) (gen_spec g) i m
    | Completed => (JS.Done, Completed)
    end in
  (result, with_state g st).

(** [iterator.return()]: the body has no [try], so the generator completes
    and the result carries no value. *)
Definition gen_return (g : Generator) : JS.IteratorResult Token * Generator :=
  (JS.Done, with_state g Completed).

(** ** [tokenize] *)

(** [Array.from(iterator)]: pull until done, collecting the values.
    [None] when [fuel] pulls did not reach the end. *)
Fixpoint Array_from (fuel : nat) (iterator : Generator) : option (list Token) :=
  match fuel with
  | O => None
  | S fuel' =>
      match gen_next iterator with
      | (JS.Yield token, iterator') =>
          option_map (cons token) (Array_from fuel' iterator')
      | (JS.Done, _) => Some []
      end
  end.

Definition tokenize (fuel : nat) (text : string) (token_spec : TokenSpecification)
  : option (list Token) :=
  let iterator := token_iterator text token_spec in
  Array_from fuel iterator.

(** ** [TokenStream] *)

Record TokenStream := { iterator : Generator }.

Definition new_TokenStream (text : string) (spec : TokenSpecification)
  : TokenStream :=
  {| iterator := token_iterator text spec |}.

(** [stream.next(...ignored_types)]: [Some None] is the source's [null];
    the outer [None] means that [fuel] rounds of the [while (true)] loop
    did not reach a [return]. *)
Fixpoint TokenStream_next (fuel : nat) (s : TokenStream)
  (ignored_types : list string) : option (option Token * TokenStream) :=
  match fuel with
  | O => None
  | S fuel' =>
      match gen_next (iterator s) with
      | (JS.Done, it') => Some (None, {| iterator := it' |})
      | (JS.Yield token, it') =>
          if JS.includes ignored_types (type token)
          then TokenStream_next fuel' {| iterator := it' |} ignored_types
          else Some (Some token, {| iterator := it' |})
      end
  end.

(** [stream.close()] *)
Definition TokenStream_close (s : TokenStream)
  : JS.IteratorResult Token * TokenStream :=
  let (result, it') := gen_return (iterator s) in
  (result, {| iterator := it' |}).

(** ** Two matchers of the exported catalogue [Matchers] *)

Definition is_word_char (a : ascii) : bool :=
  let n := nat_of_ascii a in
  ((48 <=? n) && (n <=? 57) || (65 <=? n) && (n <=? 90)
   || (97 <=? n) && (n <=? 122) || (n =? 95))%nat.

Fixpoint word_run (s : string) : nat :=
  match s with
  | String a s' => if is_word_char a then S (word_run s') else O
  | EmptyString => O
  end.

(** [Matchers.Word], the pattern [\w+]: the longest run of word characters
    at the start index, if it is not empty. *)
Definition Word : JS.RegExp :=
  {| JS.matches_at := fun text k =>
       match word_run (JS.drop k text) with
       | O => None
       | S n => Some (S n)
       end |}.

(** [Matchers.AnyCharacter], the pattern [.] with the [s] flag: any one
    code unit. *)
Definition AnyCharacter : JS.RegExp :=
  {| JS.matches_at := fun text k =>
       match JS.drop k text with
       | String _ _ => Some 1%nat
       | EmptyString => None
       end |}.

Definition newline : string := String "010"%char EmptyString.

(** ** Specifications used in the concrete instances below *)

(** [{undefined: /./s}], the catch-all specification *)
Definition catch_all_spec : TokenSpecification :=
  [("undefined", MRegExp AnyCharacter)].

(** [{word: /\w+/}] *)
Definition word_spec : TokenSpecification := [("word", MRegExp Word)].

(** [{ws: " ", word: /\w+/}] *)
Definition space_word_spec : TokenSpecification :=
  [("ws", MString " "); ("word", MRegExp Word)].

(** [{letter: "a"}] *)
Definition letter_spec : TokenSpecification := [("letter", MString "a")].

(** An entry whose literal is the empty string. *)
Definition empty_spec : TokenSpecification := [("empty", MString "")].

(** A function matcher whose answer is not a prefix of the text. *)
Definition overshoot_spec : TokenSpecification :=
  [("three", MFunction (fun _ => Some "abc"))].

(** ** Notions the statements below are phrased in *)

(** The generator after [n] calls of [next], and the result of the call
    that follows them. *)
Fixpoint after_pulls (n : nat) (g : Generator) : Generator :=
  match n with
  | O => g
  | S n' => after_pulls n' (snd (gen_next g))
  end.

Definition nth_pull (g : Generator) (n : nat) : JS.IteratorResult Token :=
  fst (gen_next (after_pulls n g)).

(** The results of the next [n] calls of [next]. *)
Definition upcoming (g : Generator) (n : nat) : list (JS.IteratorResult Token) :=
  map (nth_pull g) (seq 0 n).

(** [tokens] is what draining [g] to exhaustion produces: the calls of
    [next] give these tokens, in this order, and then report the end. *)
Definition drained (g : Generator) (tokens : list Token) : Prop :=
  upcoming g (S (List.length tokens)) = (map JS.Yield tokens ++ [JS.Done])%list.

(** The code units of a text before offset [i]. *)
Definition before (text : string) (i : nat) : list ascii :=
  firstn i (list_ascii_of_string text).

Definition is_lf (a : ascii) : bool := Ascii.eqb a "010"%char.

(** Number of newline characters strictly before offset [i]. *)
Definition newlines_before (text : string) (i : nat) : nat :=
  List.length (filter is_lf (before text i)).

(** Length of the longest prefix without a newline. *)
Fixpoint leading_run (l : list ascii) : nat :=
  match l with
  | [] => O
  | a :: l' => if is_lf a then O else S (leading_run l')
  end.

(** Number of characters between the most recent newline before offset [i]
    (or the start of the text) and offset [i]. *)
Definition since_newline (text : string) (i : nat) : nat :=
  leading_run (rev (before text i)).

(** One step of the scan cursor, as the loops of [token_iterator] make it:
    an accepted match at position [i], or a position where no matcher
    matches. *)
Inductive Advance : Type :=
| Matched (i : Z) (token : Token)
| Dropped (i : Z).

Definition position (a : Advance) : Z :=
  match a with
  | Matched i _ => i
  | Dropped i => i
  end.

(** By how much the step moves the cursor: [i += match.length - 1] and the
    loop's [i++] for a match, the loop's [i++] alone otherwise. *)
Definition advance (a : Advance) : Z :=
  match a with
  | Matched _ token => (JS.length (value token) - 1) + 1
  | Dropped _ => 1
  end.

(** The loops of [token_iterator] run without suspension from cursor [i],
    recording every step; [None] when [fuel] steps did not reach the end. *)
Fixpoint scan (fuel : nat) (text : string) (token_spec : TokenSpecification)
  (i : Z) : option (list Advance) :=
  match fuel with
  | O => None
  | S fuel' =>
      if i <? JS.length text then
        match for_entries token_spec text i with
        | Some token =>
            let i' := i + (JS.length (value token) - 1) in
            option_map (cons (Matched i token)) (scan fuel' text token_spec (i' + 1))
        | None =>
            option_map (cons (Dropped i)) (scan fuel' text token_spec (i + 1))
        end
      else Some []
  end.

(** The tokens yielded along a scan. *)
Fixpoint yielded (trace : list Advance) : list Token :=
  match trace with
  | [] => []
  | Matched _ token :: trace' => token :: yielded trace'
  | Dropped _ :: trace' => yielded trace'
  end.

(** The steps of [trace] tile the positions from [start] to [stop]: each
    step begins where the previous one ended and moves forward. *)
Fixpoint tiles (start : Z) (trace : list Advance) (stop : Z) : Prop :=
  match trace with
  | [] => start = stop
  | a :: trace' =>
      position a = start /\ 1 <= advance a /\ tiles (start + advance a) trace' stop
  end.

Definition total_advance (trace : list Advance) : Z :=
  fold_right Z.add 0 (map advance trace).

(** [stream.next] called once for each element of [calls], in order. *)
Fixpoint next_calls (fuel : nat) (s : TokenStream) (calls : list (list string))
  : option (list (option Token)) :=
  match calls with
  | [] => Some []
  | ignored_types :: calls' =>
      match TokenStream_next fuel s ignored_types with
      | Some (result, s') => option_map (cons result) (next_calls fuel s' calls')
      | None => None
      end
  end.

(** The leftmost match of [r] in [text] starts at [j] and has length
    [len]. *)
Definition earliest_match (r : JS.RegExp) (text : string) (j len : nat) : Prop :=
  (j <= String.length text)%nat /\
  JS.matches_at r text j = Some len /\
  forall j', (j' < j)%nat -> JS.matches_at r text j' = None.

(** The value of the loop variable with which the outer loop is entered
    when the generator is resumed from [st]. *)
Definition entry_cursor (st : GenState) : option Z :=
  match st with
  | SuspendedStart => Some 0
  | SuspendedYield i m => Some (i + (JS.length m - 1) + 1)
  | Completed => None
  end.

(** A recorded step agrees with the matchers at its position. *)
Definition justified (text : string) (token_spec : TokenSpecification)
  (a : Advance) : Prop :=
  match a with
  | Matched i token => for_entries token_spec text i = Some token
  | Dropped i => for_entries token_spec text i = None
  end.

(** ** [TokenStream[Symbol.iterator]] *)

(** Where the generator made by [stream[Symbol.iterator]()] is: not yet
    started, suspended at its [yield] inside the [for ... of] loop over
    [this.iterator], or completed. The underlying generator is the
    stream's own, shared with [next] and [close]. *)
Inductive IterationState : Type :=
| NotStarted
| InLoop
| Finished.

(** [next()] of that generator: the loop pulls the stream's generator and
    yields what it gets, or ends with it. *)
Definition iteration_next (s : TokenStream) (w : IterationState)
  : JS.IteratorResult Token * TokenStream * IterationState :=
  match w with
  | NotStarted | InLoop =>
      match gen_next (iterator s) with
      | (JS.Yield token, it') => (JS.Yield token, {| iterator := it' |}, InLoop)
      | (JS.Done, it') => (JS.Done, {| iterator := it' |}, Finished)
      end
  | Finished => (JS.Done, s, Finished)
  end.

(** [return()] of that generator, which a [for ... of] loop over the stream
    calls when it is left early: leaving the [yield] closes the inner loop's
    iterator, that is, calls [this.iterator.return()]; before the first
    [next] the body has not started and nothing else happens. *)
Definition iteration_return (s : TokenStream) (w : IterationState)
  : JS.IteratorResult Token * TokenStream * IterationState :=
  match w with
  | InLoop =>
      let (_, it') := gen_return (iterator s) in
      (JS.Done, {| iterator := it' |}, Finished)
  | NotStarted | Finished => (JS.Done, s, Finished)
  end.

(** [Array.from] over the generator made by [stream[Symbol.iterator]()] in
    state [w]: the collected tokens and the stream as it is left. *)
Fixpoint Array_from_iteration (fuel : nat) (s : TokenStream) (w : IterationState)
  : option (list Token * TokenStream) :=
  match fuel with
  | O => None
  | S fuel' =>
      match iteration_next s w with
      | (JS.Yield token, s', w') =>
          match Array_from_iteration fuel' s' w' with
          | Some (tokens, s'') => Some (token :: tokens, s'')
          | None => None
          end
      | (JS.Done, s', _) => Some ([], s')
      end
  end.

(** [Array.from(stream)] *)
Definition Array_from_stream (fuel : nat) (s : TokenStream)
  : option (list Token * TokenStream) :=
  Array_from_iteration fuel s NotStarted.

(** ** Further notions *)

(** Positions compared first by line, then by column. *)
Definition position_lt (p q : Z * Z) : Prop :=
  fst p < fst q \/ (fst p = fst q /\ snd p < snd q).


(** A line and column carried forward over the characters of [s], one at a
    time: a newline starts the next line at column 1, any other character
    moves one column on. *)
Fixpoint advance_position (lc : Z * Z) (s : string) : Z * Z :=
  match s with
  | EmptyString => lc
  | String a s' =>
      advance_position
        (if is_lf a then (fst lc + 1, 1) else (fst lc, snd lc + 1)) s'
  end.

(** The matcher is a string or a regular expression. *)
Definition is_pattern (matcher : TokenMatcher) : bool :=
  match matcher with
  | MString _ => true
  | MRegExp _ => true
  | MFunction _ => false
  end.

(** The token passes [stream.next(...ignored_types)]. *)
Definition kept (ignored_types : list string) (token : Token) : bool :=
  negb (JS.includes ignored_types (type token)).


(** The generators reached from [token_iterator text token_spec] keep the
    text and the specification, and are suspended at a position of the
    text when they are suspended at the [yield]. *)
Definition reached_from (text : string) (token_spec : TokenSpecification)
  (g : Generator) : Prop :=
  gen_text g = text /\ gen_spec g = token_spec /\
  match gen_state g with
  | SuspendedYield i m => 0 <= i < JS.length text
  | _ => True
  end.

(** ** Accepted matches *)

(** The scan of [g] accepts the match [m] at position [i]: some call of
    [next] leaves the generator suspended at the [yield] with loop variable
    [i] and match [m]. *)
Definition accepted_match (g : Generator) (i : Z) (m : string) : Prop :=
  exists n, gen_state (after_pulls (S n) g) = SuspendedYield i m.

(** The accepted matches among the recorded steps are accepted matches of
    the scan of [g]. *)
Definition accepted_step (g : Generator) (a : Advance) : Prop :=
  match a with
  | Matched i token => accepted_match g i (value token)
  | Dropped _ => True
  end.

(** ** [Object.entries] on an object literal *)

(** An object literal as it is written: its property definitions in source
    order. *)
Definition ObjectLiteral := list (string * TokenMatcher).

Definition digit_value (a : ascii) : option N :=
  let n := N_of_ascii a in
  if ((48 <=? n) && (n <=? 57))%N then Some (n - 48)%N else None.

Fixpoint decimal_value (s : string) (acc : N) : option N :=
  match s with
  | EmptyString => Some acc
  | String a s' =>
      match digit_value a with
      | Some d => decimal_value s' (10 * acc + d)%N
      | None => None
      end
  end.

(** The key is an array index: the canonical decimal numeral (no leading
    zero, except "0" itself) of an integer from 0 to 2^32 - 2. *)
Definition array_index (key : string) : option N :=
  match key with
  | EmptyString => None
  | String a rest =>
      if Ascii.eqb a "0"%char && negb (String.eqb rest "") then None
      else match decimal_value key 0 with
           | Some v => if (v <=? 4294967294)%N then Some v else None
           | None => None
           end
  end.

(** Defining a property: an existing key keeps its place and takes the new
    value, a new key goes last. *)
Fixpoint define_property (properties : list (string * TokenMatcher))
  (key : string) (matcher : TokenMatcher) : list (string * TokenMatcher) :=
  match properties with
  | [] => [(key, matcher)]
  | (key', matcher') :: properties' =>
      if String.eqb key' key then (key, matcher) :: properties'
      else (key', matcher') :: define_property properties' key matcher
  end.

(** The own properties of the object the literal evaluates to, in the order
    of their creation. *)
Definition own_properties (literal : ObjectLiteral) : list (string * TokenMatcher) :=
  fold_left (fun properties e => define_property properties (fst e) (snd e))
            literal [].

(** Insertion of an array-index property among those already in ascending
    order. *)
Fixpoint insert_index (v : N) (e : string * TokenMatcher)
  (sorted : list (N * (string * TokenMatcher))) : list (N * (string * TokenMatcher)) :=
  match sorted with
  | [] => [(v, e)]
  | (v', e') :: sorted' =>
      if (v <=? v')%N then (v, e) :: sorted
      else (v', e') :: insert_index v e sorted'
  end.

Fixpoint index_properties (properties : list (string * TokenMatcher))
  : list (N * (string * TokenMatcher)) :=
  match properties with
  | [] => []
  | e :: properties' =>
      match array_index (fst e) with
      | Some v => insert_index v e (index_properties properties')
      | None => index_properties properties'
      end
  end.

Definition named_properties (properties : list (string * TokenMatcher))
  : list (string * TokenMatcher) :=
  filter (fun e => match array_index (fst e) with Some _ => false | None => true end)
         properties.

(** [Object.entries(literal)]: the properties whose keys are array indices,
    in ascending numeric order, then the others in the order of their
    creation. *)
Definition Object_entries (literal : ObjectLiteral) : TokenSpecification :=
  (map snd (index_properties (own_properties literal))
   ++ named_properties (own_properties literal))%list.

(** [{boolean: "true", word: /\w+/}] as written *)
Definition boolean_word_literal : ObjectLiteral :=
  [("boolean", MString "true"); ("word", MRegExp Word)].

(** [{word: /\w+/, "1": "1"}] as written *)
Definition word_one_literal : ObjectLiteral :=
  [("word", MRegExp Word); ("1", MString "1")].

(** [{ab: "ab", e: ""}]: the empty literal would match at position 1, which
    the scan of "ab" never reaches. *)
Definition ab_empty_spec : TokenSpecification :=
  [("ab", MString "ab"); ("e", MString "")].

(** [{ws: " ", boolean: "true", word: /\w+/}] *)
Definition ws_boolean_word_spec : TokenSpecification :=
  [("ws", MString " "); ("boolean", MString "true"); ("word", MRegExp Word)].

(** The cursor at which the scan goes on when [next] is called on [g]: 0
    for a generator that has not started, the end of the match for one
    suspended at the [yield]. *)
Definition resumes_at (g : Generator) (c : Z) : Prop :=
  match gen_state g with
  | SuspendedStart => c = 0
  | SuspendedYield j v => c = j + JS.length v
  | Completed => False
  end.


(** * Properties *)

(** ** JavaScript primitives *)

Lemma prefix_app (p s : string) :
  String.prefix p s = true <-> exists rest, s = p ++ rest.
Proof.
  revert s; induction p as [|a p IH]; intros s.
  - split; [intros _; now exists s | now destruct s].
  - destruct s as [|b s]; simpl.
    + split; [discriminate | intros [rest H]; discriminate].
    + destruct (Ascii.ascii_dec a b) as [->|Hne].
      * rewrite IH. split; intros [rest H]; exists rest.
        -- now rewrite H.
        -- now injection H.
      * split; [discriminate | intros [rest H]; injection H; congruence].
Qed.

Lemma exec_from_some (r : JS.RegExp) (text : string) (todo k : nat) m :
  JS.exec_from r text todo k = Some m ->
  exists j len,
    (k <= j < k + todo)%nat /\ JS.matches_at r text j = Some len /\
    (forall j', (k <= j' < j)%nat -> JS.matches_at r text j' = None) /\
    m = {| JS.index := Z.of_nat j; JS.match0 := String.substring j len text |}.
Proof.
  revert k; induction todo as [|todo IH]; intros k; simpl; [discriminate|].
  destruct (JS.matches_at r text k) as [len|] eqn:Hk.
  - intros [= <-]. exists k, len. repeat split; try lia; auto.
  - intros H. destruct (IH _ H) as (j & len & Hj & Hm & Hbefore & ->).
    exists j, len. repeat split; try lia; auto.
    intros j' Hj'. destruct (Nat.eq_dec j' k) as [->|?]; [assumption|].
    apply Hbefore; lia.
Qed.

Lemma exec_from_none (r : JS.RegExp) (text : string) (todo k : nat) :
  JS.exec_from r text todo k = None <->
  forall j, (k <= j < k + todo)%nat -> JS.matches_at r text j = None.
Proof.
  revert k; induction todo as [|todo IH]; intros k; simpl.
  - split; [intros _ j ?; lia | reflexivity].
  - destruct (JS.matches_at r text k) as [len|] eqn:Hk.
    + split; [discriminate|]. intros H. rewrite H in Hk by lia. discriminate.
    + rewrite IH. split; intros H j Hj.
      * destruct (Nat.eq_dec j k) as [->|?]; [assumption | apply H; lia].
      * apply H; lia.
Qed.

(** ** [match_start_of_text] and the generator's loops *)

(** The loop equation of [for_loop]: test, body, increment. *)
Lemma for_loop_step (text : string) (token_spec : TokenSpecification) (i : Z) :
  for_loop text token_spec i =
  if i <? JS.length text then
    match for_entries token_spec text i with
    | Some token => (JS.Yield token, SuspendedYield i (value token))
    | None => for_loop text token_spec (i + 1)
    end
  else (JS.Done, Completed).
Proof.
  etransitivity; [apply for_loop_equation_1|].
  destruct (Z_lt_dec i (JS.length text)) as [H|H]; simpl.
  - destruct (Z.ltb_spec i (JS.length text)); [|lia].
    destruct (for_entries token_spec text i); reflexivity.
  - destruct (Z.ltb_spec i (JS.length text)); [lia|reflexivity].
Qed.

(** [exec] returns the leftmost match. *)
Lemma exec_earliest (r : JS.RegExp) (text : string) (j len : nat) :
  earliest_match r text j len ->
  JS.exec r text
  = Some {| JS.index := Z.of_nat j; JS.match0 := String.substring j len text |}.
Proof.
  intros (Hj & Hm & Hbefore). unfold JS.exec.
  destruct (JS.exec_from r text (S (String.length text)) 0) as [e|] eqn:He.
  - destruct (exec_from_some _ _ _ _ _ He) as (j0 & len0 & Hj0 & Hm0 & Hb0 & ->).
    destruct (Nat.lt_trichotomy j0 j) as [Hlt|[->|Hgt]].
    + rewrite Hbefore in Hm0 by assumption. discriminate.
    + congruence.
    + rewrite Hb0 in Hm by lia. discriminate.
  - rewrite exec_from_none in He. rewrite He in Hm by lia. discriminate.
Qed.

Lemma exec_some_earliest (r : JS.RegExp) (text : string) e :
  JS.exec r text = Some e ->
  exists j len, earliest_match r text j len /\
    e = {| JS.index := Z.of_nat j; JS.match0 := String.substring j len text |}.
Proof.
  unfold JS.exec. intros He.
  destruct (exec_from_some _ _ _ _ _ He) as (j & len & Hj & Hm & Hb & ->).
  exists j, len. split; [|reflexivity].
  repeat split; [lia | assumption | intros j' ?; apply Hb; lia].
Qed.

(** C4. [match_start_of_text] on each of the three kinds of matcher. A
    string matcher matches exactly when the text starts with the literal,
    and the match is the literal. A regular expression matches exactly when
    its leftmost match in the text starts at offset 0, and the match is the
    full text of that match; when the leftmost match starts later there is
    no match. A function matcher is called on the text and its result is
    returned as it is. *)
Theorem match_start_of_text_variants (text : string) :
  (forall literal m,
      match_start_of_text text (MString literal) = Some m
      <-> m = literal /\ exists rest, text = literal ++ rest)
  /\ (forall r m,
      match_start_of_text text (MRegExp r) = Some m
      <-> exists len, earliest_match r text 0 len /\ m = String.substring 0 len text)
  /\ (forall r j len,
      earliest_match r text j len -> (0 < j)%nat ->
      match_start_of_text text (MRegExp r) = None)
  /\ (forall f, match_start_of_text text (MFunction f) = f text).
Proof.
  repeat split.
  - simpl in H. unfold JS.startsWith in H.
    destruct (String.prefix literal text); congruence.
  - simpl in H. unfold JS.startsWith in H.
    destruct (String.prefix literal text) eqn:Hp; [|discriminate].
    now apply prefix_app.
  - intros [-> Hrest]. simpl. unfold JS.startsWith.
    apply prefix_app in Hrest. now rewrite Hrest.
  - simpl. destruct (JS.exec r text) as [e|] eqn:He; [|discriminate].
    destruct (exec_some_earliest _ _ _ He) as (j & len & Hearly & ->). simpl.
    destruct (Z.eqb_spec (Z.of_nat j) 0) as [Hz|]; [|discriminate].
    intros [= <-]. assert (j = 0%nat) as -> by lia. now exists len.
  - intros (len & Hearly & ->). simpl.
    now rewrite (exec_earliest _ _ _ _ Hearly).
  - intros r j len Hearly Hpos. simpl.
    rewrite (exec_earliest _ _ _ _ Hearly). simpl.
    destruct (Z.eqb_spec (Z.of_nat j) 0); [lia | reflexivity].
Qed.

(** ** [get_line_and_column] *)

(** One more round of the loop of [get_line_and_column]. *)
Lemma get_line_and_column_succ (text : string) (n : nat) :
  get_line_and_column text (Z.of_nat (S n))
  = line_column_step text (get_line_and_column text (Z.of_nat n)) n.
Proof.
  unfold get_line_and_column. rewrite !Nat2Z.id, seq_S, fold_left_app.
  reflexivity.
Qed.

Lemma get_line_and_column_positive (text : string) (index : Z) :
  1 <= fst (get_line_and_column text index)
  /\ 1 <= snd (get_line_and_column text index).
Proof.
  unfold get_line_and_column.
  induction (Z.to_nat index) as [|n IH].
  - simpl. lia.
  - rewrite seq_S, fold_left_app. simpl.
    destruct (fold_left _ _ _) as [l c]. unfold line_column_step.
    destruct (JS.is_newline _); simpl in *; lia.
Qed.

Lemma get_nth_error (s : string) (n : nat) :
  String.get n s = nth_error (list_ascii_of_string s) n.
Proof.
  revert n; induction s as [|a s IH]; intros [|n]; simpl; auto.
Qed.

Lemma length_list_ascii (s : string) :
  List.length (list_ascii_of_string s) = String.length s.
Proof. induction s; simpl; congruence. Qed.

Lemma firstn_snoc {A} (l : list A) (n : nat) (a : A) :
  nth_error l n = Some a -> firstn (S n) l = (firstn n l ++ [a])%list.
Proof.
  revert n; induction l as [|b l IH]; intros [|n]; simpl; try discriminate.
  - now intros [= ->].
  - intros H. f_equal. now apply IH.
Qed.

Lemma line_column_count (text : string) (n : nat) :
  (n <= String.length text)%nat ->
  get_line_and_column text (Z.of_nat n)
  = (1 + Z.of_nat (newlines_before text n), 1 + Z.of_nat (since_newline text n)).
Proof.
  induction n as [|n IH]; intros Hn.
  - reflexivity.
  - rewrite get_line_and_column_succ, IH by lia.
    unfold line_column_step, JS.char_at, newlines_before, since_newline, before.
    rewrite get_nth_error.
    destruct (nth_error (list_ascii_of_string text) n) as [a|] eqn:Ha.
    + rewrite (firstn_snoc _ _ _ Ha), filter_app, length_app, rev_app_distr.
      cbn -[Z.add Z.of_nat]. unfold is_lf.
      destruct (Ascii.eqb a "010"); cbn -[Z.add Z.of_nat]; f_equal; lia.
    + apply nth_error_None in Ha. rewrite length_list_ascii in Ha. lia.
Qed.

(** ** The loops of [token_iterator] *)

(** The inner loop stops at the first entry whose matcher matches. *)
Lemma for_entries_first (earlier later : TokenSpecification) ty matcher text i m :
  Forall (fun e => match_start_of_text (JS.slice text i) (snd e) = None) earlier ->
  match_start_of_text (JS.slice text i) matcher = Some m ->
  for_entries (earlier ++ (ty, matcher) :: later)%list text i
  = Some {| type := ty; value := m;
            line := fst (get_line_and_column text i);
            column := snd (get_line_and_column text i) |}.
Proof.
  intros Hearlier Hm. induction Hearlier as [|[ty0 m0] earlier H0 _ IH]; simpl.
  - rewrite Hm. now destruct (get_line_and_column text i).
  - simpl in H0. now rewrite H0.
Qed.

Lemma for_entries_some (entries : TokenSpecification) text i token :
  for_entries entries text i = Some token ->
  exists earlier matcher later,
    entries = (earlier ++ (type token, matcher) :: later)%list /\
    Forall (fun e => match_start_of_text (JS.slice text i) (snd e) = None) earlier /\
    match_start_of_text (JS.slice text i) matcher = Some (value token) /\
    (line token, column token) = get_line_and_column text i.
Proof.
  induction entries as [|[ty matcher] entries IH]; simpl; [discriminate|].
  destruct (match_start_of_text (JS.slice text i) matcher) as [m|] eqn:Hm.
  - destruct (get_line_and_column text i) as [l c] eqn:Hlc.
    intros [= <-]. exists [], matcher, entries. simpl. auto.
  - intros H. destruct (IH H) as (earlier & matcher' & later & -> & Hb & Hm' & Hlc).
    exists ((ty, matcher) :: earlier), matcher', later. simpl. auto.
Qed.

(** What the outer loop returns: the token of the first position from [i]
    on at which an entry matches, or the end of the text. *)
Lemma for_loop_result (text : string) (token_spec : TokenSpecification) (i : Z) :
  match for_loop text token_spec i with
  | (JS.Yield token, st) =>
      exists j, i <= j < JS.length text /\
        for_entries token_spec text j = Some token /\
        st = SuspendedYield j (value token) /\
        forall k, i <= k < j -> for_entries token_spec text k = None
  | (JS.Done, st) =>
      st = Completed /\
      forall k, i <= k < JS.length text -> for_entries token_spec text k = None
  end.
Proof.
  remember (Z.to_nat (JS.length text - i)) as n eqn:Hn.
  revert i Hn; induction n as [|n IH]; intros i Hn;
    rewrite for_loop_step; destruct (Z.ltb_spec i (JS.length text)) as [Hlt|Hge];
    try lia.
  - split; [reflexivity | intros; lia].
  - destruct (for_entries token_spec text i) as [token|] eqn:He.
    + exists i. repeat split; auto; lia.
    + specialize (IH (i + 1) ltac:(lia)).
      destruct (for_loop text token_spec (i + 1)) as [[token|] st].
      * destruct IH as (j & Hj & Hej & -> & Hnone).
        exists j. repeat split; auto; try lia.
        intros k Hk. destruct (Z.eq_dec k i) as [->|]; [assumption|].
        apply Hnone; lia.
      * destruct IH as [-> Hnone]. split; [reflexivity|].
        intros k Hk. destruct (Z.eq_dec k i) as [->|]; [assumption|].
        apply Hnone; lia.
Qed.

(** [next] runs the outer loop from the cursor the generator resumes at. *)
Lemma gen_next_for_loop (g : Generator) :
  gen_next g =
  match entry_cursor (gen_state g) with
  | Some i =>
      (fst (for_loop (gen_text g) (gen_spec g) i),
       with_state g (snd (for_loop (gen_text g) (gen_spec g) i)))
  | None => (JS.Done, with_state g Completed)
  end.
Proof.
  unfold gen_next, resume. destruct (gen_state g); simpl; try reflexivity;
    now destruct (for_loop _ _ _).
Qed.

Lemma gen_next_yield (g : Generator) token g' :
  gen_next g = (JS.Yield token, g') ->
  exists i j, entry_cursor (gen_state g) = Some i /\ i <= j < JS.length (gen_text g) /\
    for_entries (gen_spec g) (gen_text g) j = Some token /\
    g' = with_state g (SuspendedYield j (value token)).
Proof.
  rewrite gen_next_for_loop.
  destruct (entry_cursor (gen_state g)) as [i|]; [|discriminate].
  pose proof (for_loop_result (gen_text g) (gen_spec g) i) as H.
  destruct (for_loop _ _ i) as [[tok|] st]; simpl; intros [= <- <-].
  destruct H as (j & Hj & He & -> & _). exists i, j; auto.
Qed.

Lemma gen_next_done (g : Generator) g' :
  gen_next g = (JS.Done, g') -> g' = with_state g Completed.
Proof.
  rewrite gen_next_for_loop.
  destruct (entry_cursor (gen_state g)) as [i|]; [|now intros [= <-]].
  pose proof (for_loop_result (gen_text g) (gen_spec g) i) as H.
  destruct (for_loop _ _ i) as [[tok|] st]; simpl; intros [= <-].
  now destruct H as [-> _].
Qed.

Lemma gen_next_reached (text : string) (token_spec : TokenSpecification)
  (g : Generator) :
  reached_from text token_spec g ->
  reached_from text token_spec (snd (gen_next g)).
Proof.
  intros (Htext & Hspec & Hst). rewrite gen_next_for_loop.
  destruct (entry_cursor (gen_state g)) as [i|] eqn:Hi; cbn [snd].
  - pose proof (for_loop_result (gen_text g) (gen_spec g) i) as H.
    destruct (for_loop _ _ i) as [[token|] st]; cbn [snd].
    + destruct H as (j & Hj & _ & -> & _).
      split; [exact Htext|]. split; [exact Hspec|].
      cbn [with_state gen_state]. rewrite Htext in Hj.
      destruct (gen_state g) as [|i0 m0|]; cbn in Hi; try discriminate;
        injection Hi as <-; unfold JS.length in *; lia.
    + destruct H as [-> _]. repeat split; auto.
  - repeat split; auto.
Qed.

Lemma after_pulls_reached (text : string) (token_spec : TokenSpecification)
  (n : nat) (g : Generator) :
  reached_from text token_spec g ->
  reached_from text token_spec (after_pulls n g).
Proof.
  revert g; induction n as [|n IH]; intros g Hg; [assumption|].
  cbn [after_pulls]. now apply IH, gen_next_reached.
Qed.

Lemma token_iterator_reached (text : string) (token_spec : TokenSpecification) :
  reached_from text token_spec (token_iterator text token_spec).
Proof. repeat split. Qed.

Lemma reached_yield (text : string) (token_spec : TokenSpecification)
  (g : Generator) (token : Token) :
  reached_from text token_spec g ->
  fst (gen_next g) = JS.Yield token ->
  exists i, 0 <= i < JS.length text /\ for_entries token_spec text i = Some token.
Proof.
  intros (Htext & Hspec & Hst) Hy.
  destruct (gen_next g) as [r g'] eqn:Hg. cbn [fst] in Hy. subst r.
  destruct (gen_next_yield _ _ _ Hg) as (i & j & Hi & Hj & He & _).
  rewrite Htext, Hspec in *. exists j. split; [|assumption].
  destruct (gen_state g) as [|i0 m0|]; cbn in Hi; try discriminate;
    injection Hi as <-; unfold JS.length in *; lia.
Qed.

(** C10. [get_line_and_column] starts at line 1, column 1; a round of its
    loop never decreases the line and leaves the column at 1 or more; so
    its result is positive at every offset, and every token that
    [token_iterator] yields, for any text and specification, has
    [line >= 1] and [column >= 1]. *)
Theorem tokens_have_positive_positions :
  (forall text, get_line_and_column text 0 = (1, 1))
  /\ (forall text lc i,
      fst lc <= fst (line_column_step text lc i)
      /\ (1 <= snd lc -> 1 <= snd (line_column_step text lc i)))
  /\ (forall text index,
      1 <= fst (get_line_and_column text index)
      /\ 1 <= snd (get_line_and_column text index))
  /\ (forall text token_spec n token,
      nth_pull (token_iterator text token_spec) n = JS.Yield token ->
      1 <= line token /\ 1 <= column token).
Proof.
  split; [reflexivity|]. split; [|split; [apply get_line_and_column_positive|]].
  - intros text [l c] i. unfold line_column_step.
    destruct (JS.is_newline _); simpl; lia.
  - intros text token_spec n token. unfold nth_pull.
    destruct (gen_next (after_pulls n (token_iterator text token_spec)))
      as [r g'] eqn:Hg.
    simpl. intros ->.
    destruct (gen_next_yield _ _ _ Hg) as (i & j & _ & _ & He & _).
    destruct (for_entries_some _ _ _ _ He) as (_ & _ & _ & _ & _ & _ & Hlc).
    pose proof (get_line_and_column_positive
                  (gen_text (after_pulls n (token_iterator text token_spec))) j)
      as Hpos.
    rewrite <- Hlc in Hpos. exact Hpos.
Qed.

(** ** Draining the generator *)

Lemma Array_from_mono (fuel fuel' : nat) (g : Generator) tokens :
  Array_from fuel g = Some tokens -> (fuel <= fuel')%nat ->
  Array_from fuel' g = Some tokens.
Proof.
  revert fuel' g tokens; induction fuel as [|fuel IH]; intros fuel' g tokens;
    simpl; [discriminate|].
  intros H Hle. destruct fuel' as [|fuel']; [lia|]. simpl.
  destruct (gen_next g) as [[token|] g']; [|assumption].
  destruct (Array_from fuel g') as [rest|] eqn:Hrest; [|discriminate].
  now rewrite (IH fuel' g' rest Hrest) by lia.
Qed.

Lemma upcoming_S (g : Generator) (n : nat) :
  upcoming g (S n) = fst (gen_next g) :: upcoming (snd (gen_next g)) n.
Proof.
  unfold upcoming. rewrite <- cons_seq, <- seq_shift. cbn [map].
  now rewrite map_map.
Qed.

Lemma after_pulls_add (g : Generator) (n m : nat) :
  after_pulls m (after_pulls n g) = after_pulls (n + m) g.
Proof. revert g; induction n as [|n IH]; intros g; simpl; auto. Qed.

Lemma Array_from_drained (fuel : nat) (g : Generator) tokens :
  Array_from fuel g = Some tokens -> drained g tokens.
Proof.
  unfold drained. revert g tokens; induction fuel as [|fuel IH]; intros g tokens;
    simpl; [discriminate|].
  rewrite upcoming_S.
  destruct (gen_next g) as [[token|] g'] eqn:Hg; simpl.
  - destruct (Array_from fuel g') as [rest|] eqn:Hrest; [|discriminate].
    intros [= <-]. simpl. now rewrite (IH _ _ Hrest).
  - now intros [= <-].
Qed.

Lemma drained_Array_from (g : Generator) tokens (fuel : nat) :
  drained g tokens -> (List.length tokens < fuel)%nat ->
  Array_from fuel g = Some tokens.
Proof.
  unfold drained. revert g fuel; induction tokens as [|token tokens IH];
    intros g fuel; rewrite upcoming_S; simpl; intros H Hfuel;
    (destruct fuel as [|fuel]; [lia|]); simpl;
    destruct (gen_next g) as [r g']; simpl in *.
  - injection H as ->. reflexivity.
  - injection H as -> Htail. now rewrite (IH g' fuel Htail) by lia.
Qed.

(** C6. [tokenize] returns a list of tokens exactly when draining
    [token_iterator] on the same text and specification to exhaustion
    produces these tokens in this order; once the number of pulls allowed
    exceeds the number of tokens, [tokenize] returns that list. *)
Theorem tokenize_is_eager_drain (text : string) (token_spec : TokenSpecification)
  (tokens : list Token) :
  ((exists fuel, tokenize fuel text token_spec = Some tokens)
   <-> drained (token_iterator text token_spec) tokens)
  /\ (forall fuel, (List.length tokens < fuel)%nat ->
      drained (token_iterator text token_spec) tokens ->
      tokenize fuel text token_spec = Some tokens).
Proof.
  unfold tokenize. split; [split|].
  - intros [fuel H]. exact (Array_from_drained _ _ _ H).
  - intros H. exists (S (List.length tokens)).
    apply drained_Array_from; [assumption | lia].
  - intros fuel Hfuel H. now apply drained_Array_from.
Qed.

(** ** The scan cursor *)

Lemma scan_mono (fuel fuel' : nat) text token_spec i trace :
  scan fuel text token_spec i = Some trace -> (fuel <= fuel')%nat ->
  scan fuel' text token_spec i = Some trace.
Proof.
  revert fuel' i trace; induction fuel as [|fuel IH]; intros fuel' i trace;
    simpl; [discriminate|].
  intros H Hle. destruct fuel' as [|fuel']; [lia|]. simpl.
  destruct (i <? JS.length text); [|assumption].
  destruct (for_entries token_spec text i) as [token|].
  - destruct (scan fuel text token_spec _) as [rest|] eqn:Hrest; [|discriminate].
    now rewrite (IH fuel' _ rest Hrest) by lia.
  - destruct (scan fuel text token_spec _) as [rest|] eqn:Hrest; [|discriminate].
    now rewrite (IH fuel' _ rest Hrest) by lia.
Qed.

(** The tokens [Array.from] collects from a generator that resumes at
    cursor [i] are the tokens yielded along the scan from [i]. *)
Lemma scan_Array_from (fuel : nat) text token_spec i trace :
  scan fuel text token_spec i = Some trace ->
  forall g, gen_text g = text -> gen_spec g = token_spec ->
    gen_next g = (fst (for_loop text token_spec i),
                  with_state g (snd (for_loop text token_spec i))) ->
    Array_from (S (List.length (yielded trace))) g = Some (yielded trace).
Proof.
  revert i trace; induction fuel as [|fuel IH]; intros i trace;
    simpl; [discriminate|].
  intros Hscan g Htext Hspec Hnext. rewrite for_loop_step in Hnext.
  destruct (i <? JS.length text).
  - destruct (for_entries token_spec text i) as [token|].
    + destruct (scan fuel text token_spec _) as [rest|] eqn:Hrest; [|discriminate].
      injection Hscan as <-. cbn [yielded List.length].
      change (Array_from (S (S ?n)) g)
        with (match gen_next g with
              | (JS.Yield token, g') => option_map (cons token) (Array_from (S n) g')
              | (JS.Done, _) => Some []
              end).
      rewrite Hnext. cbn [fst snd].
      erewrite (IH _ _ Hrest); [reflexivity | exact Htext | exact Hspec |].
      rewrite gen_next_for_loop. cbn [with_state gen_state gen_text gen_spec entry_cursor].
      now rewrite Htext, Hspec.
    + destruct (scan fuel text token_spec _) as [rest|] eqn:Hrest; [|discriminate].
      injection Hscan as <-. cbn [yielded].
      now apply (IH _ _ Hrest).
  - injection Hscan as <-. cbn [yielded List.length Array_from].
    now rewrite Hnext.
Qed.

Lemma scan_tokenize (fuel fuel' : nat) text token_spec trace :
  scan fuel text token_spec 0 = Some trace ->
  (List.length (yielded trace) < fuel')%nat ->
  tokenize fuel' text token_spec = Some (yielded trace).
Proof.
  intros Hscan Hfuel. unfold tokenize.
  apply Array_from_mono with (fuel := S (List.length (yielded trace))); [|lia].
  apply (scan_Array_from _ _ _ _ _ Hscan); try reflexivity.
  now rewrite gen_next_for_loop.
Qed.

Lemma nonempty_length (s : string) : s <> "" <-> 1 <= JS.length s.
Proof.
  unfold JS.length. destruct s; simpl; split; try congruence; try lia.
Qed.

Lemma yielded_length (trace : list Advance) :
  (List.length (yielded trace) <= List.length trace)%nat.
Proof. induction trace as [|[i t|i] trace IH]; simpl; lia. Qed.


Lemma tiles_total (start stop : Z) (trace : list Advance) :
  tiles start trace stop -> total_advance trace = stop - start.
Proof.
  unfold total_advance. revert start; induction trace as [|a trace IH];
    intros start; simpl.
  - lia.
  - intros (_ & _ & H). rewrite (IH _ H). lia.
Qed.

(** ** The matches a scan accepts *)

Lemma after_pulls_last (n : nat) (g : Generator) :
  after_pulls (S n) g = snd (gen_next (after_pulls n g)).
Proof.
  replace (S n) with (n + 1)%nat by lia. now rewrite <- after_pulls_add.
Qed.

(** An accepted match is the value of the token of the first matching
    entry at a position of the text. *)
Lemma accepted_match_for_entries (text : string) (token_spec : TokenSpecification)
  (i : Z) (m : string) :
  accepted_match (token_iterator text token_spec) i m ->
  0 <= i < JS.length text
  /\ exists token, for_entries token_spec text i = Some token /\ value token = m.
Proof.
  intros [n Hn]. rewrite after_pulls_last in Hn.
  pose proof (after_pulls_reached _ _ n _ (token_iterator_reached text token_spec))
    as (Htext & Hspec & _).
  destruct (gen_next (after_pulls n (token_iterator text token_spec)))
    as [[token|] g'] eqn:Hg; cbn [snd] in Hn.
  - pose proof (reached_yield text token_spec _ token
                  (after_pulls_reached _ _ n _ (token_iterator_reached text token_spec)))
      as Hy.
    destruct (gen_next_yield _ _ _ Hg) as (c & j & Hc & Hj & He & ->).
    cbn [with_state gen_state] in Hn. injection Hn as <- <-.
    rewrite Htext, Hspec in *.
    pose proof (gen_next_reached text token_spec _
                  (after_pulls_reached _ _ n _ (token_iterator_reached text token_spec)))
      as (_ & _ & Hst).
    rewrite Hg in Hst. cbn [snd with_state gen_state] in Hst.
    split; [exact Hst | now exists token].
  - rewrite (gen_next_done _ _ Hg) in Hn. discriminate.
Qed.

Lemma accepted_match_later (g : Generator) (i : Z) (m : string) :
  accepted_match (snd (gen_next g)) i m -> accepted_match g i m.
Proof. intros [n Hn]. now exists (S n). Qed.

(** When no accepted match of a generator that resumes at cursor [i] is
    empty, the scan from [i] ends within [text.length - i] steps, each of
    which moves the cursor forward, and its matches are accepted matches of
    that generator. *)
Lemma scan_terminates_accepted (text : string) (token_spec : TokenSpecification) :
  forall fuel i g,
    gen_text g = text -> gen_spec g = token_spec ->
    gen_next g = (fst (for_loop text token_spec i),
                  with_state g (snd (for_loop text token_spec i))) ->
    (forall j m, accepted_match g j m -> 1 <= JS.length m) ->
    0 <= i -> (Z.to_nat (JS.length text - i) < fuel)%nat ->
    exists trace,
      scan fuel text token_spec i = Some trace /\
      Forall (fun a => 1 <= advance a) trace /\
      Forall (justified text token_spec) trace /\
      Forall (accepted_step g) trace /\
      (List.length trace <= Z.to_nat (JS.length text - i))%nat.
Proof.
  induction fuel as [|fuel IH]; intros i g Htext Hspec Hnext Hacc Hi Hfuel; [lia|].
  simpl. rewrite for_loop_step in Hnext.
  destruct (Z.ltb_spec i (JS.length text)) as [Hlt|Hge].
  - destruct (for_entries token_spec text i) as [token|] eqn:He.
    + cbn [fst snd] in Hnext.
      assert (accepted_match g i (value token)) as Hhere.
      { exists 0%nat. cbn [after_pulls]. now rewrite Hnext. }
      pose proof (Hacc _ _ Hhere) as Hpos.
      destruct (IH (i + (JS.length (value token) - 1) + 1) (snd (gen_next g)))
        as (rest & -> & Hadv & Hjust & Hsteps & Hn).
      * now rewrite Hnext.
      * now rewrite Hnext.
      * rewrite Hnext. cbn [snd]. rewrite gen_next_for_loop.
        cbn [with_state gen_state gen_text gen_spec entry_cursor].
        now rewrite Htext, Hspec.
      * intros j m Hjm. apply (Hacc j), accepted_match_later, Hjm.
      * lia.
      * lia.
      * eexists; split; [reflexivity|]. repeat split.
        -- constructor; [simpl; lia | assumption].
        -- constructor; assumption.
        -- constructor; [exact Hhere|].
           eapply Forall_impl; [|exact Hsteps].
           intros [j t|j]; cbn [accepted_step]; [apply accepted_match_later | trivial].
        -- simpl. lia.
    + destruct (IH (i + 1) g) as (rest & -> & Hadv & Hjust & Hsteps & Hn);
        try assumption; try lia.
      eexists; split; [reflexivity|]. repeat split.
      * constructor; [simpl; lia | assumption].
      * constructor; assumption.
      * constructor; [exact I | assumption].
      * simpl. lia.
  - exists []. repeat split; try constructor. simpl; lia.
Qed.

Lemma scan_terminates_from_start (text : string) (token_spec : TokenSpecification) :
  (forall i m, accepted_match (token_iterator text token_spec) i m -> m <> "") ->
  exists trace,
    scan (S (String.length text)) text token_spec 0 = Some trace /\
    Forall (fun a => 1 <= advance a) trace /\
    Forall (justified text token_spec) trace /\
    Forall (accepted_step (token_iterator text token_spec)) trace /\
    (List.length trace <= String.length text)%nat.
Proof.
  intros Hne.
  assert (gen_next (token_iterator text token_spec)
          = (fst (for_loop text token_spec 0),
             with_state (token_iterator text token_spec)
               (snd (for_loop text token_spec 0)))) as Hnext
    by now rewrite gen_next_for_loop.
  assert (forall j m, accepted_match (token_iterator text token_spec) j m ->
            1 <= JS.length m) as Hacc
    by (intros j m Hjm; apply nonempty_length, (Hne j m Hjm)).
  destruct (scan_terminates_accepted text token_spec (S (String.length text)) 0
              (token_iterator text token_spec) eq_refl eq_refl Hnext Hacc
              ltac:(lia) ltac:(unfold JS.length; lia))
    as (trace & Hscan & Hadv & Hjust & Hsteps & Hn).
  exists trace. unfold JS.length in Hn. repeat split; auto. lia.
Qed.

(** Steps that move forward and stay within the text tile the positions
    from the cursor they start at to the end of the text. *)
Lemma scan_tiles_steps (text : string) (token_spec : TokenSpecification) :
  forall fuel i trace, 0 <= i <= JS.length text ->
    scan fuel text token_spec i = Some trace ->
    Forall (fun a => 1 <= advance a <= JS.length text - position a) trace ->
    tiles i trace (JS.length text).
Proof.
  induction fuel as [|fuel IH]; intros i trace Hi; simpl; [discriminate|].
  destruct (Z.ltb_spec i (JS.length text)) as [Hlt|Hge].
  - destruct (for_entries token_spec text i) as [token|] eqn:He.
    + destruct (scan fuel text token_spec _) as [rest|] eqn:Hrest; [|discriminate].
      intros [= <-] Hb. inversion Hb as [|? ? Ha Hb']; subst.
      cbn [advance position] in Ha. simpl. repeat split; try lia.
      apply IH; [lia | | exact Hb'].
      now replace (i + (JS.length (value token) - 1 + 1))
        with (i + (JS.length (value token) - 1) + 1) by lia.
    + destruct (scan fuel text token_spec _) as [rest|] eqn:Hrest; [|discriminate].
      intros [= <-] Hb. inversion Hb as [|? ? Ha Hb']; subst.
      simpl. repeat split; try lia. apply IH; [lia | assumption | exact Hb'].
  - intros [= <-] _. simpl. lia.
Qed.

Lemma scan_positions (text : string) (token_spec : TokenSpecification) :
  forall fuel i trace,
    scan fuel text token_spec i = Some trace ->
    Forall (fun a => position a < JS.length text) trace.
Proof.
  induction fuel as [|fuel IH]; intros i trace; simpl; [discriminate|].
  destruct (Z.ltb_spec i (JS.length text)) as [Hlt|Hge].
  - destruct (for_entries token_spec text i) as [token|];
      destruct (scan fuel text token_spec _) as [rest|] eqn:Hrest; try discriminate;
      intros [= <-]; constructor; try exact Hlt; apply (IH _ _ Hrest).
  - intros [= <-]. constructor.
Qed.

(** C3, amended. For every text and every specification in which each
    accepted match is neither empty nor longer than the rest of the text,
    the full scan of [token_iterator] ends; each of its steps is an
    accepted match, which advances the cursor by the length of the match,
    or a position where no matcher matches, which advances it by exactly
    one and yields no token; the steps tile the positions from 0 to the
    length of the text, so that no position is visited twice and none is
    skipped; and the advances sum exactly to the length of the text. *)
Theorem advances_sum_to_text_length (text : string) (token_spec : TokenSpecification) :
  (forall i m, accepted_match (token_iterator text token_spec) i m ->
     1 <= JS.length m <= JS.length text - i) ->
  exists trace,
    (forall fuel, (String.length text < fuel)%nat ->
       scan fuel text token_spec 0 = Some trace
       /\ tokenize fuel text token_spec = Some (yielded trace))
    /\ Forall (justified text token_spec) trace
    /\ tiles 0 trace (JS.length text)
    /\ total_advance trace = JS.length text.
Proof.
  intros Hlen.
  destruct (scan_terminates_from_start text token_spec)
    as (trace & Hscan & Hadv & Hjust & Hsteps & Hn).
  { intros i m Him. apply nonempty_length. apply (Hlen i m Him). }
  pose proof (yielded_length trace) as Hy.
  assert (tiles 0 trace (JS.length text)) as Htiles.
  { apply (scan_tiles_steps text token_spec _ 0 trace
             ltac:(unfold JS.length; lia) Hscan).
    pose proof (scan_positions _ _ _ _ _ Hscan) as Hpos.
    rewrite Forall_forall in *. intros a Ha.
    specialize (Hsteps a Ha). specialize (Hpos a Ha).
    destruct a as [j token|j]; cbn [accepted_step advance position] in *.
    - pose proof (Hlen _ _ Hsteps). lia.
    - lia. }
  exists trace. repeat split; auto.
  - apply (scan_mono _ _ _ _ _ _ Hscan). lia.
  - apply (scan_tokenize _ _ _ _ _ Hscan). lia.
  - rewrite (tiles_total _ _ _ Htiles). lia.
Qed.

(** C1, amended. For every text and every specification in which no
    accepted match is empty, every step of the scan advances the cursor by
    at least one position, and [token_iterator] ends on the text, after it
    has yielded at most [text.length] tokens. The loops contain no guard
    for the zero-length case. *)
Theorem token_iterator_terminates (text : string) (token_spec : TokenSpecification) :
  (forall i m, accepted_match (token_iterator text token_spec) i m -> m <> "") ->
  exists trace,
    (forall fuel, (String.length text < fuel)%nat ->
       scan fuel text token_spec 0 = Some trace
       /\ tokenize fuel text token_spec = Some (yielded trace))
    /\ Forall (fun a => 1 <= advance a) trace
    /\ (List.length (yielded trace) <= String.length text)%nat.
Proof.
  intros Hne.
  destruct (scan_terminates_from_start text token_spec Hne)
    as (trace & Hscan & Hadv & _ & _ & Hn).
  pose proof (yielded_length trace) as Hy.
  exists trace. repeat split; auto.
  - apply (scan_mono _ _ _ _ _ _ Hscan). lia.
  - apply (scan_tokenize _ _ _ _ _ Hscan). lia.
  - lia.
Qed.

(** ** Matches that are empty or longer than the rest of the text *)

(** With an empty literal the generator yields, resumes at the same
    cursor and yields again. *)
Lemma empty_match_stuck :
  let g := token_iterator "a" empty_spec in
  let token := {| type := "empty"; value := ""; line := 1; column := 1 |} in
  let g' := with_state g (SuspendedYield 0 "") in
  gen_next g = (JS.Yield token, g') /\ gen_next g' = (JS.Yield token, g').
Proof. split; reflexivity. Qed.

Lemma empty_match_never_drained (fuel : nat) :
  Array_from fuel (token_iterator "a" empty_spec) = None.
Proof.
  destruct empty_match_stuck as [H0 H1].
  assert (forall n, Array_from n
            (with_state (token_iterator "a" empty_spec) (SuspendedYield 0 "")) = None)
    as Hloop.
  { induction n as [|n IH]; [reflexivity|].
    cbn [Array_from]. rewrite H1, IH. reflexivity. }
  destruct fuel as [|fuel]; [reflexivity|].
  cbn [Array_from]. rewrite H0, Hloop. reflexivity.
Qed.

Lemma empty_match_scan (fuel : nat) : scan fuel "a" empty_spec 0 = None.
Proof.
  induction fuel as [|fuel IH]; [reflexivity|].
  change (scan (S fuel) "a" empty_spec 0)
    with (option_map (cons (Matched 0 {| type := "empty"; value := ""; line := 1; column := 1 |}))
            (scan fuel "a" empty_spec 0)).
  now rewrite IH.
Qed.

(** C1, counterexample. On the text "a" with the one entry
    [{empty: ""}], the empty match is accepted at position 0 and advances
    the cursor by 0: the first two calls of [next] yield the same token at
    the same position, and no number of pulls drains the generator. *)
Lemma zero_length_match_does_not_advance :
  (exists token,
      for_entries empty_spec "a" 0 = Some token /\ value token = ""
      /\ advance (Matched 0 token) = 0
      /\ nth_pull (token_iterator "a" empty_spec) 0 = JS.Yield token
      /\ nth_pull (token_iterator "a" empty_spec) 1 = JS.Yield token)
  /\ ~ exists fuel tokens, tokenize fuel "a" empty_spec = Some tokens.
Proof.
  split.
  - eexists. repeat split.
  - intros (fuel & tokens & H). unfold tokenize in H.
    now rewrite empty_match_never_drained in H.
Qed.

(** C3, counterexample. On the text "a", a function matcher that answers
    "abc" makes the full scan one step whose advance is 3, not 1; and with
    the entry [{empty: ""}] no full scan exists. *)
Lemma advances_do_not_sum_to_text_length :
  (exists trace,
      scan 2 "a" overshoot_spec 0 = Some trace
      /\ total_advance trace = 3 /\ JS.length "a" = 1)
  /\ (~ exists fuel trace, scan fuel "a" empty_spec 0 = Some trace).
Proof.
  split.
  - eexists. repeat split.
  - intros (fuel & trace & H). now rewrite empty_match_scan in H.
Qed.

(** ** Precedence among entries *)

Lemma for_loop_skip (text : string) (token_spec : TokenSpecification) (c i : Z) :
  c <= i ->
  (forall k, c <= k < i -> for_entries token_spec text k = None) ->
  for_loop text token_spec c = for_loop text token_spec i.
Proof.
  intros Hci. remember (Z.to_nat (i - c)) as n eqn:Hn.
  revert c Hci Hn; induction n as [|n IH]; intros c Hci Hn Hnone.
  - now replace c with i by lia.
  - rewrite for_loop_step.
    destruct (Z.ltb_spec c (JS.length text)) as [Hlt|Hge].
    + rewrite (Hnone c) by lia. apply IH; try lia.
      intros k Hk. apply Hnone. lia.
    + rewrite (for_loop_step text token_spec i).
      destruct (Z.ltb_spec i (JS.length text)); [lia | reflexivity].
Qed.

Lemma define_property_new (properties : list (string * TokenMatcher))
  (key : string) (matcher : TokenMatcher) :
  ~ In key (map fst properties) ->
  define_property properties key matcher = (properties ++ [(key, matcher)])%list.
Proof.
  induction properties as [|[k m] properties IH]; simpl; intros Hnot;
    [reflexivity|].
  destruct (String.eqb_spec k key) as [->|Hne]; [tauto|].
  rewrite IH by tauto. reflexivity.
Qed.

Lemma own_properties_distinct (literal properties : list (string * TokenMatcher)) :
  NoDup (map fst (properties ++ literal)) ->
  fold_left (fun ps e => define_property ps (fst e) (snd e)) literal properties
  = (properties ++ literal)%list.
Proof.
  revert properties; induction literal as [|[k m] literal IH]; intros properties Hnd;
    simpl.
  - now rewrite app_nil_r.
  - rewrite define_property_new.
    + rewrite IH; rewrite <- app_assoc; [reflexivity | exact Hnd].
    + rewrite map_app in Hnd. simpl in Hnd.
      apply NoDup_remove_2 in Hnd. intros Hin. apply Hnd, in_or_app. now left.
Qed.

Lemma Object_entries_named (literal : ObjectLiteral) :
  NoDup (map fst literal) ->
  Forall (fun e => array_index (fst e) = None) literal ->
  Object_entries literal = literal.
Proof.
  intros Hnd Hnamed. unfold Object_entries, own_properties.
  rewrite (own_properties_distinct literal []) by exact Hnd. cbn [app].
  assert (index_properties literal = []) as ->.
  { induction Hnamed as [|e l He _ IH]; [reflexivity|].
    cbn [index_properties]. rewrite He. apply IH. now inversion Hnd. }
  cbn [map app]. unfold named_properties.
  clear Hnd. induction Hnamed as [|e l He _ IH]; [reflexivity|].
  cbn [filter]. now rewrite He, IH.
Qed.

Lemma resumes_at_entry_cursor (g : Generator) (c : Z) :
  resumes_at g c -> entry_cursor (gen_state g) = Some c.
Proof.
  unfold resumes_at. destruct (gen_state g); cbn [entry_cursor];
    intros H; [subst; reflexivity | f_equal; lia | contradiction].
Qed.

(** C2, amended. Let a call of [next] on [token_iterator] resume the scan
    at cursor [c], let no entry match at the positions from [c] up to [i],
    and at position [i] let an entry's matcher match while no entry
    enumerated before it does. Then that call yields the token of this
    entry, at position [i], whatever the matchers of the entries after it
    would answer. The order is the one in which [Object.entries]
    enumerates the specification, which is the order of declaration when
    no type name is an array index. With the specification
    [{boolean: "true", word: /\w+/}], whose second matcher also matches
    "true", the input "true" gives exactly one token, of type [boolean]
    and value "true". *)
Theorem first_match_wins :
  (forall text token_spec n c i earlier ty matcher later m,
      resumes_at (after_pulls n (token_iterator text token_spec)) c ->
      c <= i < JS.length text ->
      (forall k, c <= k < i -> for_entries token_spec text k = None) ->
      token_spec = (earlier ++ (ty, matcher) :: later)%list ->
      Forall (fun e => match_start_of_text (JS.slice text i) (snd e) = None) earlier ->
      match_start_of_text (JS.slice text i) matcher = Some m ->
      nth_pull (token_iterator text token_spec) n
      = JS.Yield {| type := ty; value := m;
                    line := fst (get_line_and_column text i);
                    column := snd (get_line_and_column text i) |}
      /\ gen_state (after_pulls (S n) (token_iterator text token_spec))
         = SuspendedYield i m)
  /\ (forall literal,
      NoDup (map fst literal) ->
      Forall (fun e => array_index (fst e) = None) literal ->
      Object_entries literal = literal)
  /\ match_start_of_text "true" (MRegExp Word) = Some "true"
  /\ (forall fuel, (1 < fuel)%nat ->
      tokenize fuel "true" (Object_entries boolean_word_literal)
      = Some [{| type := "boolean"; value := "true"; line := 1; column := 1 |}]).
Proof.
  split; [|split; [exact Object_entries_named | split; [reflexivity|]]].
  - intros text token_spec n c i earlier ty matcher later m Hc Hi Hnone Hspec
      Hearlier Hm.
    pose proof (after_pulls_reached _ _ n _ (token_iterator_reached text token_spec))
      as (Htext & Hspec' & _).
    assert (gen_next (after_pulls n (token_iterator text token_spec))
            = (JS.Yield {| type := ty; value := m;
                           line := fst (get_line_and_column text i);
                           column := snd (get_line_and_column text i) |},
               with_state (after_pulls n (token_iterator text token_spec))
                 (SuspendedYield i m))) as Hnext.
    { rewrite gen_next_for_loop, (resumes_at_entry_cursor _ _ Hc), Htext, Hspec'.
      rewrite (for_loop_skip text token_spec c i ltac:(lia) Hnone).
      rewrite for_loop_step.
      destruct (Z.ltb_spec i (JS.length text)); [|lia].
      assert (for_entries token_spec text i
              = Some {| type := ty; value := m;
                        line := fst (get_line_and_column text i);
                        column := snd (get_line_and_column text i) |}) as ->
        by (rewrite Hspec; exact (for_entries_first earlier later ty matcher text i m
                                    Hearlier Hm)).
      reflexivity. }
    split.
    + unfold nth_pull. now rewrite Hnext.
    + rewrite after_pulls_last, Hnext. reflexivity.
  - intros fuel Hfuel.
    apply Array_from_mono with (fuel := 2%nat); [reflexivity | lia].
Qed.

Lemma first_match_wins_witness :
  nth_pull (token_iterator "true true" ws_boolean_word_spec) 2
  = JS.Yield {| type := "boolean"; value := "true";
                line := fst (get_line_and_column "true true" 5);
                column := snd (get_line_and_column "true true" 5) |}
  /\ gen_state (after_pulls 3 (token_iterator "true true" ws_boolean_word_spec))
     = SuspendedYield 5 "true".
Proof.
  apply (proj1 first_match_wins "true true" ws_boolean_word_spec 2%nat 5 5
           [("ws", MString " ")] "boolean" (MString "true")
           [("word", MRegExp Word)] "true").
  - reflexivity.
  - unfold JS.length; simpl; lia.
  - intros k Hk; lia.
  - reflexivity.
  - repeat constructor.
  - reflexivity.
Defined.

(** C2, counterexample. In [{word: /\w+/, "1": "1"}] the entry declared
    first is [word], and both matchers match the text "1" at position 0;
    [Object.entries] enumerates the array index "1" first, and the token
    yielded is of type "1", not [word]. *)
Lemma declaration_order_does_not_decide :
  match_start_of_text (JS.slice "1" 0) (MRegExp Word) = Some "1"
  /\ match_start_of_text (JS.slice "1" 0) (MString "1") = Some "1"
  /\ Object_entries word_one_literal = [("1", MString "1"); ("word", MRegExp Word)]
  /\ tokenize 2 "1" (Object_entries word_one_literal)
     = Some [{| type := "1"; value := "1"; line := 1; column := 1 |}].
Proof. repeat split. Qed.

(** ** Line and column of a token *)

(** C5. For every text and every offset [i] with [0 <= i <= text.length],
    [get_line_and_column text i] is the pair of 1 plus the number of
    newline characters strictly before [i], and 1 plus the number of
    characters between the most recent such newline (or the start of the
    text) and [i]. The text of "a", a newline and "b", scanned with the
    catch-all matcher, gives the positions (1,1), (1,2) and (2,1). *)
Theorem get_line_and_column_counts :
  (forall text i, 0 <= i <= JS.length text ->
      get_line_and_column text i
      = (1 + Z.of_nat (newlines_before text (Z.to_nat i)),
         1 + Z.of_nat (since_newline text (Z.to_nat i))))
  /\ (forall fuel, (3 < fuel)%nat ->
      tokenize fuel ("a" ++ newline ++ "b") catch_all_spec
      = Some [{| type := "undefined"; value := "a"; line := 1; column := 1 |};
              {| type := "undefined"; value := newline; line := 1; column := 2 |};
              {| type := "undefined"; value := "b"; line := 2; column := 1 |}]).
Proof.
  split.
  - intros text i Hi. unfold JS.length in Hi.
    rewrite <- (Z2Nat.id i) at 1 by lia.
    apply line_column_count. lia.
  - intros fuel Hfuel.
    apply Array_from_mono with (fuel := 4%nat); [reflexivity | lia].
Qed.

Lemma get_line_and_column_counts_witness :
  get_line_and_column ("a" ++ newline ++ "b") 2 = (2, 1).
Proof.
  apply (proj1 get_line_and_column_counts ("a" ++ newline ++ "b") 2).
  unfold JS.length; simpl; lia.
Defined.

(** ** [TokenStream] *)

(** On a completed generator [stream.next] returns [null] at once. *)
Lemma closed_next (g : Generator) (fuel : nat) (ignored_types : list string) :
  TokenStream_next (S fuel) {| iterator := with_state g Completed |} ignored_types
  = Some (None, {| iterator := with_state g Completed |}).
Proof. reflexivity. Qed.

Lemma closed_next_calls (g : Generator) (fuel : nat) (calls : list (list string)) :
  next_calls (S fuel) {| iterator := with_state g Completed |} calls
  = Some (repeat None (List.length calls)).
Proof.
  induction calls as [|ignored_types calls IH]; [reflexivity|].
  cbn [next_calls List.length repeat]. rewrite closed_next, IH. reflexivity.
Qed.

(** [stream.next] goes past upcoming tokens whose types are ignored. *)
Lemma next_skips (s : TokenStream) (ignored_types : list string)
  (skipped : list Token) (fuel : nat) :
  upcoming (iterator s) (List.length skipped) = map JS.Yield skipped ->
  Forall (fun t => JS.includes ignored_types (type t) = true) skipped ->
  TokenStream_next (List.length skipped + fuel) s ignored_types
  = TokenStream_next fuel
      {| iterator := after_pulls (List.length skipped) (iterator s) |} ignored_types.
Proof.
  revert s; induction skipped as [|t skipped IH]; intros [g] Hup Hig.
  - reflexivity.
  - cbn [List.length] in *. rewrite upcoming_S in Hup. cbn [map iterator] in *.
    injection Hup as Hhead Htail. inversion Hig as [|? ? Ht Hrest]; subst.
    cbn [Nat.add TokenStream_next iterator after_pulls].
    destruct (gen_next g) as [r g'] eqn:Hg. cbn [fst snd] in *. subst r.
    rewrite Ht. apply (IH {| iterator := g' |}); assumption.
Qed.

(** C7. Let the next [k] tokens of the underlying sequence all have types
    in [ignored_types] ([k] may be 0, [ignored_types] may be empty and is
    an argument of this one call). If the sequence then yields a token
    whose type is not in [ignored_types], [next] returns that token. If the
    sequence is then exhausted, [next] returns [null], and so does every
    later call of [next], with any arguments. In both cases the stream is
    left just after the element that ended the call, so that later calls
    see the rest of the sequence in its order. *)
Theorem TokenStream_next_skips_ignored (s : TokenStream)
  (ignored_types : list string) (skipped : list Token) :
  upcoming (iterator s) (List.length skipped) = map JS.Yield skipped ->
  Forall (fun t => JS.includes ignored_types (type t) = true) skipped ->
  let k := List.length skipped in
  let s' := {| iterator := after_pulls (S k) (iterator s) |} in
  (forall token,
      nth_pull (iterator s) k = JS.Yield token ->
      JS.includes ignored_types (type token) = false ->
      forall fuel, (k < fuel)%nat ->
        TokenStream_next fuel s ignored_types = Some (Some token, s'))
  /\ (nth_pull (iterator s) k = JS.Done ->
      (forall fuel, (k < fuel)%nat ->
         TokenStream_next fuel s ignored_types = Some (None, s'))
      /\ (forall fuel calls,
         next_calls (S fuel) s' calls = Some (repeat None (List.length calls))))
  /\ (forall j, nth_pull (iterator s') j = nth_pull (iterator s) (S k + j)).
Proof.
  intros Hup Hig k s'. subst k s'. repeat split.
  - intros token Hk Hnot fuel Hfuel.
    replace fuel with (List.length skipped + S (fuel - S (List.length skipped)))%nat by lia.
    rewrite (next_skips s ignored_types skipped _ Hup Hig).
    unfold nth_pull in Hk. cbn [TokenStream_next iterator].
    replace (S (List.length skipped)) with (List.length skipped + 1)%nat by lia.
    rewrite <- after_pulls_add. cbn [after_pulls].
    destruct (gen_next (after_pulls _ (iterator s))) as [r g'].
    cbn [fst snd] in *. subst r. now rewrite Hnot.
  - intros fuel Hfuel.
    replace fuel with (List.length skipped + S (fuel - S (List.length skipped)))%nat by lia.
    rewrite (next_skips s ignored_types skipped _ Hup Hig).
    unfold nth_pull in H. cbn [TokenStream_next iterator].
    replace (S (List.length skipped)) with (List.length skipped + 1)%nat by lia.
    rewrite <- after_pulls_add. cbn [after_pulls].
    destruct (gen_next (after_pulls _ (iterator s))) as [r g'].
    cbn [fst snd] in *. now subst r.
  - intros fuel calls.
    replace (S (List.length skipped)) with (List.length skipped + 1)%nat by lia.
    rewrite <- after_pulls_add. cbn [after_pulls].
    unfold nth_pull in H.
    destruct (gen_next (after_pulls _ (iterator s))) as [r g'] eqn:Hg.
    cbn [fst snd] in *. subst r. rewrite (gen_next_done _ _ Hg).
    apply closed_next_calls.
  - intros j. unfold nth_pull. cbn [iterator]. now rewrite after_pulls_add.
Qed.

(** C9. After [close] the underlying generator is completed: every call of
    [next], with any [ignored_types], returns [null] and leaves the stream
    as it is, and so does every sequence of such calls. *)
Theorem next_after_close_is_null (s : TokenStream) :
  let closed := snd (TokenStream_close s) in
  gen_state (iterator closed) = Completed
  /\ (forall fuel ignored_types,
      TokenStream_next (S fuel) closed ignored_types = Some (None, closed))
  /\ (forall fuel calls,
      next_calls (S fuel) closed calls = Some (repeat None (List.length calls))).
Proof.
  destruct s as [g]. cbn. repeat split.
  intros fuel calls. apply closed_next_calls.
Qed.

(** C8. What [close] returns is the generator's [{value: undefined, done:
    true}] and never a token: on the stream over "a" with the entry
    [{letter: "a"}], [next] produces the token "a" and the following
    [close] returns a result without value. *)
Theorem close_returns_no_token :
  (forall s, TokenStream_close s
             = (JS.Done, {| iterator := with_state (iterator s) Completed |}))
  /\ (exists token s1,
      TokenStream_next 1 (new_TokenStream "a" letter_spec) [] = Some (Some token, s1)
      /\ value token = "a"
      /\ fst (TokenStream_close s1) = JS.Done
      /\ fst (TokenStream_close s1) <> JS.Yield token).
Proof.
  split; [reflexivity|].
  do 2 eexists. repeat split. discriminate.
Qed.

(** ** Instances on concrete inputs *)

Lemma match_start_of_text_variants_witness :
  match_start_of_text " ab" (MRegExp Word) = None.
Proof.
  apply (proj1 (proj2 (proj2 (match_start_of_text_variants " ab"))) Word 1%nat 2%nat).
  - repeat split.
    + simpl; lia.
    + intros j' Hj'. assert (j' = 0%nat) as -> by lia. reflexivity.
  - lia.
Defined.

Lemma completed_after_pulls (g : Generator) (n : nat) :
  gen_state g = Completed -> gen_state (after_pulls n g) = Completed.
Proof.
  revert g; induction n as [|n IH]; intros g Hg; [assumption|].
  cbn [after_pulls]. apply IH. unfold gen_next. now rewrite Hg.
Qed.

Lemma ab_empty_accepted (i : Z) (m : string) :
  accepted_match (token_iterator "ab" ab_empty_spec) i m -> i = 0 /\ m = "ab".
Proof.
  intros [[|n] Hn].
  - vm_compute in Hn. now injection Hn as <- <-.
  - change (after_pulls (S (S n)) (token_iterator "ab" ab_empty_spec))
      with (after_pulls n (after_pulls 2 (token_iterator "ab" ab_empty_spec))) in Hn.
    rewrite completed_after_pulls in Hn by reflexivity. discriminate.
Defined.

Lemma advances_sum_to_text_length_witness :
  exists trace,
    (forall fuel, (String.length "ab" < fuel)%nat ->
       scan fuel "ab" ab_empty_spec 0 = Some trace
       /\ tokenize fuel "ab" ab_empty_spec = Some (yielded trace))
    /\ Forall (justified "ab" ab_empty_spec) trace
    /\ tiles 0 trace (JS.length "ab")
    /\ total_advance trace = JS.length "ab".
Proof.
  apply (advances_sum_to_text_length "ab" ab_empty_spec).
  intros i m Him. destruct (ab_empty_accepted i m Him) as [-> ->].
  unfold JS.length. simpl. lia.
Defined.

Lemma token_iterator_terminates_witness :
  exists trace,
    (forall fuel, (String.length "ab" < fuel)%nat ->
       scan fuel "ab" ab_empty_spec 0 = Some trace
       /\ tokenize fuel "ab" ab_empty_spec = Some (yielded trace))
    /\ Forall (fun a => 1 <= advance a) trace
    /\ (List.length (yielded trace) <= String.length "ab")%nat.
Proof.
  apply (token_iterator_terminates "ab" ab_empty_spec).
  intros i m Him. destruct (ab_empty_accepted i m Him) as [_ ->]. discriminate.
Defined.

Lemma tokenize_is_eager_drain_witness :
  tokenize 3 "a b" word_spec
  = Some [{| type := "word"; value := "a"; line := 1; column := 1 |};
          {| type := "word"; value := "b"; line := 1; column := 3 |}].
Proof.
  apply (proj2 (tokenize_is_eager_drain "a b" word_spec _)).
  - simpl; lia.
  - reflexivity.
Defined.

Lemma tokens_have_positive_positions_witness :
  1 <= line {| type := "word"; value := "b"; line := 1; column := 3 |}
  /\ 1 <= column {| type := "word"; value := "b"; line := 1; column := 3 |}.
Proof.
  apply (proj2 (proj2 (proj2 tokens_have_positive_positions)) "a b" word_spec 1%nat).
  reflexivity.
Defined.

Lemma TokenStream_next_skips_ignored_witness :
  TokenStream_next 2 (new_TokenStream " ab" space_word_spec) ["ws"]
  = Some (Some {| type := "word"; value := "ab"; line := 1; column := 2 |},
          {| iterator := after_pulls 2 (token_iterator " ab" space_word_spec) |}).
Proof.
  assert (Forall (fun t => JS.includes ["ws"] (type t) = true)
            [{| type := "ws"; value := " "; line := 1; column := 1 |}]) as Hws
    by (repeat constructor).
  apply (proj1 (TokenStream_next_skips_ignored
                  (new_TokenStream " ab" space_word_spec) ["ws"]
                  [{| type := "ws"; value := " "; line := 1; column := 1 |}]
                  eq_refl Hws)).
  - reflexivity.
  - reflexivity.
  - simpl; lia.
Defined.

(** * Further properties of the code *)

(** ** Empty text, empty specification *)

(** X1. On the empty text, whatever the specification, the generator is
    done at its first [next], [tokenize] returns the empty list and the
    first [stream.next] returns [null]. *)
Theorem empty_text_no_tokens (token_spec : TokenSpecification) :
  nth_pull (token_iterator "" token_spec) 0 = JS.Done
  /\ (forall fuel, tokenize (S fuel) "" token_spec = Some [])
  /\ (forall fuel ignored_types,
      exists s, TokenStream_next (S fuel) (new_TokenStream "" token_spec) ignored_types
                = Some (None, s)).
Proof.
  assert (gen_next (token_iterator "" token_spec)
          = (JS.Done, with_state (token_iterator "" token_spec) Completed)) as H.
  { rewrite gen_next_for_loop. cbn [token_iterator gen_state entry_cursor gen_text gen_spec].
    now rewrite for_loop_step. }
  split; [|split].
  - unfold nth_pull. cbn [after_pulls]. now rewrite H.
  - intros fuel. unfold tokenize. cbn [Array_from]. now rewrite H.
  - intros fuel ignored_types. eexists. unfold new_TokenStream.
    cbn [TokenStream_next iterator]. rewrite H. reflexivity.
Qed.

Lemma for_loop_no_entries (text : string) (i : Z) :
  for_loop text [] i = (JS.Done, Completed).
Proof.
  pose proof (for_loop_result text [] i) as H.
  destruct (for_loop text [] i) as [[token|] st].
  - destruct H as (j & _ & He & _). discriminate.
  - now destruct H as [-> _].
Qed.

(** X2. With the empty specification, whatever the text, the generator is
    done at its first [next] and [tokenize] returns the empty list: every
    character is passed over and nothing is yielded. *)
Theorem empty_specification_no_tokens (text : string) :
  nth_pull (token_iterator text []) 0 = JS.Done
  /\ forall fuel, tokenize (S fuel) text [] = Some [].
Proof.
  assert (gen_next (token_iterator text [])
          = (JS.Done, with_state (token_iterator text []) Completed)) as H.
  { rewrite gen_next_for_loop. cbn [token_iterator gen_state entry_cursor gen_text gen_spec].
    now rewrite for_loop_no_entries. }
  split.
  - unfold nth_pull. cbn [after_pulls]. now rewrite H.
  - intros fuel. unfold tokenize. cbn [Array_from]. now rewrite H.
Qed.

(** ** Where a yielded token comes from *)

(** X3. Every token that [token_iterator] yields comes from an entry of the
    specification at a position of the text: its type is the key of that
    entry, no entry enumerated before it matches at that position, its
    value is what the entry's matcher answers on the text from that
    position on, and its line and column are those of the position. *)
Theorem yielded_token_origin (text : string) (token_spec : TokenSpecification)
  (n : nat) (token : Token) :
  nth_pull (token_iterator text token_spec) n = JS.Yield token ->
  exists i earlier matcher later,
    0 <= i < JS.length text
    /\ token_spec = (earlier ++ (type token, matcher) :: later)%list
    /\ Forall (fun e => match_start_of_text (JS.slice text i) (snd e) = None) earlier
    /\ match_start_of_text (JS.slice text i) matcher = Some (value token)
    /\ (line token, column token) = get_line_and_column text i.
Proof.
  intros Hy.
  destruct (reached_yield text token_spec _ token
              (after_pulls_reached _ _ n _ (token_iterator_reached text token_spec)) Hy)
    as (i & Hi & He).
  destruct (for_entries_some _ _ _ _ He) as (earlier & matcher & later & H).
  exists i, earlier, matcher, later. tauto.
Qed.

Lemma yielded_token_origin_witness :
  exists i earlier matcher later,
    0 <= i < JS.length "a b"
    /\ word_spec = (earlier ++ ("word", matcher) :: later)%list
    /\ Forall (fun e => match_start_of_text (JS.slice "a b" i) (snd e) = None) earlier
    /\ match_start_of_text (JS.slice "a b" i) matcher = Some "b"
    /\ (1, 3) = get_line_and_column "a b" i.
Proof.
  apply (yielded_token_origin "a b" word_spec 1
           {| type := "word"; value := "b"; line := 1; column := 3 |}).
  reflexivity.
Defined.

Lemma substring_prefix (n : nat) (s : string) :
  exists rest, s = String.substring 0 n s ++ rest.
Proof.
  revert s; induction n as [|n IH]; intros [|a s]; simpl;
    try (now exists ""); try (now eexists).
  destruct (IH s) as [rest Hrest]. exists rest. now rewrite <- Hrest.
Qed.

Lemma pattern_match_prefix (text : string) (matcher : TokenMatcher) (m : string) :
  is_pattern matcher = true ->
  match_start_of_text text matcher = Some m ->
  exists rest, text = m ++ rest.
Proof.
  destruct matcher as [literal|r|f]; [| |discriminate]; intros _; simpl.
  - unfold JS.startsWith.
    destruct (String.prefix literal text) eqn:Hp; [|discriminate].
    intros [= <-]. now apply prefix_app.
  - destruct (JS.exec r text) as [e|] eqn:He; [|discriminate].
    destruct (exec_some_earliest _ _ _ He) as (j & len & _ & ->). simpl.
    destruct (Z.eqb_spec (Z.of_nat j) 0); [|discriminate].
    intros [= <-]. assert (j = 0%nat) as -> by lia. apply substring_prefix.
Qed.

Lemma drop_all (s : string) (n : nat) :
  (String.length s <= n)%nat -> JS.drop n s = "".
Proof.
  revert n; induction s as [|a s IH]; intros [|n] H; simpl in *;
    try reflexivity; try lia.
  apply IH; lia.
Qed.

Lemma slice_drop (text : string) (i : Z) :
  0 <= i -> JS.slice text i = JS.drop (Z.to_nat i) text.
Proof.
  intros Hi. unfold JS.slice, JS.length.
  destruct (Z.ltb_spec i 0) as [?|_]; [lia|].
  destruct (Z.le_gt_cases i (Z.of_nat (String.length text))) as [Hle|Hgt].
  - now rewrite Z.min_l by assumption.
  - rewrite Z.min_r, Nat2Z.id by lia.
    rewrite !drop_all by lia. reflexivity.
Qed.

Lemma drop_split (n : nat) (s : string) :
  (n <= String.length s)%nat ->
  exists pre, s = pre ++ JS.drop n s /\ String.length pre = n.
Proof.
  revert s; induction n as [|n IH]; intros s Hn.
  - now exists "".
  - destruct s as [|a s]; simpl in Hn; [lia|].
    destruct (IH s ltac:(lia)) as (pre & Hs & Hlen).
    exists (String a pre). simpl. split; [now rewrite <- Hs | now rewrite Hlen].
Qed.

(** X4. When the specification holds only strings and regular expressions,
    the value of every token that [token_iterator] yields is the piece of
    the text that starts at the token's position: the text is some [pre],
    then the value, then some [rest], and the token's line and column are
    those of the offset [pre.length]. *)
Theorem yielded_value_is_text_at_position (text : string)
  (token_spec : TokenSpecification) (n : nat) (token : Token) :
  Forall (fun e => is_pattern (snd e) = true) token_spec ->
  nth_pull (token_iterator text token_spec) n = JS.Yield token ->
  exists pre rest,
    text = pre ++ value token ++ rest
    /\ JS.length pre < JS.length text
    /\ (line token, column token) = get_line_and_column text (JS.length pre).
Proof.
  intros Hpat Hy.
  destruct (reached_yield text token_spec _ token
              (after_pulls_reached _ _ n _ (token_iterator_reached text token_spec)) Hy)
    as (i & Hi & He).
  destruct (for_entries_some _ _ _ _ He)
    as (earlier & matcher & later & -> & _ & Hm & Hlc).
  apply Forall_app in Hpat. destruct Hpat as [_ Hpat].
  inversion Hpat as [|? ? Hmatcher _]; subst. cbn [snd] in Hmatcher.
  destruct (pattern_match_prefix _ _ _ Hmatcher Hm) as [rest Hrest].
  rewrite slice_drop in Hrest by lia.
  destruct (drop_split (Z.to_nat i) text) as (pre & Htext & Hlen).
  { unfold JS.length in Hi. lia. }
  exists pre, rest.
  assert (JS.length pre = i) as Hpre by (unfold JS.length; lia).
  rewrite Hpre. repeat split; [|lia|assumption].
  now rewrite <- Hrest.
Qed.

Lemma yielded_value_is_text_at_position_witness :
  exists pre rest,
    "a b" = pre ++ "b" ++ rest
    /\ JS.length pre < JS.length "a b"
    /\ (1, 3) = get_line_and_column "a b" (JS.length pre).
Proof.
  apply (yielded_value_is_text_at_position "a b" word_spec 1
           {| type := "word"; value := "b"; line := 1; column := 3 |}).
  - repeat constructor.
  - reflexivity.
Defined.

(** ** [get_line_and_column] off the text and along it *)

Lemma get_outside (s : string) (n : nat) :
  (String.length s <= n)%nat -> String.get n s = None.
Proof.
  intros H. rewrite get_nth_error. apply nth_error_None.
  now rewrite length_list_ascii.
Qed.

(** X5. [get_line_and_column] at an index that is not a position of the
    text: at a negative index it answers (1, 1), as at index 0; past the end
    of the text the line stays that of the end and the column goes on
    counting, one per index. *)
Theorem get_line_and_column_outside (text : string) :
  (forall index, index <= 0 -> get_line_and_column text index = (1, 1))
  /\ (forall k, 0 <= k ->
      get_line_and_column text (JS.length text + k)
      = (fst (get_line_and_column text (JS.length text)),
         snd (get_line_and_column text (JS.length text)) + k)).
Proof.
  split.
  - intros index Hindex. unfold get_line_and_column.
    now replace (Z.to_nat index) with 0%nat by lia.
  - intros k Hk. rewrite <- (Z2Nat.id k) by lia. unfold JS.length.
    induction (Z.to_nat k) as [|n IH].
    + rewrite Z.add_0_r. destruct (get_line_and_column text _) as [l c].
      cbn [fst snd]. f_equal. lia.
    + replace (Z.of_nat (String.length text) + Z.of_nat (S n))
        with (Z.of_nat (S (String.length text + n))) by lia.
      rewrite get_line_and_column_succ.
      replace (Z.of_nat (String.length text + n))
        with (Z.of_nat (String.length text) + Z.of_nat n) by lia.
      rewrite IH. unfold line_column_step, JS.char_at.
      rewrite get_outside by lia. cbn [JS.is_newline fst snd]. f_equal. lia.
Qed.

Lemma get_line_and_column_outside_witness :
  get_line_and_column "ab" (JS.length "ab" + 3) = (1, 3 + 3).
Proof.
  apply (proj2 (get_line_and_column_outside "ab") 3). lia.
Defined.

Lemma position_lt_trans (p q r : Z * Z) :
  position_lt p q -> position_lt q r -> position_lt p r.
Proof. unfold position_lt. lia. Qed.

Lemma position_lt_succ (text : string) (n : nat) :
  position_lt (get_line_and_column text (Z.of_nat n))
              (get_line_and_column text (Z.of_nat (S n))).
Proof.
  rewrite get_line_and_column_succ.
  destruct (get_line_and_column text (Z.of_nat n)) as [l c].
  unfold line_column_step, position_lt.
  destruct (JS.is_newline _); simpl; lia.
Qed.

Lemma position_lt_offsets (text : string) (a b : nat) :
  (a < b)%nat ->
  position_lt (get_line_and_column text (Z.of_nat a))
              (get_line_and_column text (Z.of_nat b)).
Proof.
  induction b as [|b IH]; intros Hab; [lia|].
  destruct (Nat.eq_dec a b) as [->|Hne].
  - apply position_lt_succ.
  - apply position_lt_trans with (q := get_line_and_column text (Z.of_nat b)).
    + apply IH; lia.
    + apply position_lt_succ.
Qed.

Lemma position_lt_between (text : string) (a b : Z) :
  0 <= a < b ->
  position_lt (get_line_and_column text a) (get_line_and_column text b).
Proof.
  intros Hab. rewrite <- (Z2Nat.id a), <- (Z2Nat.id b) by lia.
  apply position_lt_offsets. lia.
Qed.

(** X6. [get_line_and_column] preserves the order of offsets: for
    [0 <= i < j], the line and column of [i] come strictly before those of
    [j], by line first and column second. Hence two different offsets from
    0 on never get the same line and column. *)
Theorem get_line_and_column_increasing (text : string) (i j : Z) :
  0 <= i -> 0 <= j ->
  (i < j -> position_lt (get_line_and_column text i) (get_line_and_column text j))
  /\ (get_line_and_column text i = get_line_and_column text j -> i = j).
Proof.
  intros Hi Hj.
  pose proof (position_lt_between text) as Hlt.
  split; [intros; apply Hlt; lia|].
  intros Heq. destruct (Z.lt_trichotomy i j) as [H|[H|H]]; [|assumption|].
  - pose proof (Hlt i j ltac:(lia)) as Hp. rewrite Heq in Hp.
    unfold position_lt in Hp. lia.
  - pose proof (Hlt j i ltac:(lia)) as Hp. rewrite Heq in Hp.
    unfold position_lt in Hp. lia.
Qed.

Lemma get_line_and_column_increasing_witness :
  (1 < 2 -> position_lt (get_line_and_column ("a" ++ newline ++ "b") 1)
                        (get_line_and_column ("a" ++ newline ++ "b") 2))
  /\ (get_line_and_column ("a" ++ newline ++ "b") 1
      = get_line_and_column ("a" ++ newline ++ "b") 2 -> 1 = 2).
Proof.
  apply (get_line_and_column_increasing ("a" ++ newline ++ "b") 1 2); lia.
Defined.

Lemma string_append_assoc (a b c : string) : (a ++ b) ++ c = a ++ b ++ c.
Proof. induction a as [|x a IH]; simpl; congruence. Qed.

Lemma string_length_append (a b : string) :
  String.length (a ++ b) = (String.length a + String.length b)%nat.
Proof. induction a as [|x a IH]; simpl; congruence. Qed.

Lemma get_append_length (p : string) (x : ascii) (s : string) :
  String.get (String.length p) (p ++ String x s) = Some x.
Proof. induction p as [|y p IH]; simpl; auto. Qed.

Lemma fold_line_column_over (p v rest : string) (lc : Z * Z) :
  fold_left (line_column_step (p ++ v ++ rest))
            (seq (String.length p) (String.length v)) lc
  = advance_position lc v.
Proof.
  revert p lc; induction v as [|x v IH]; intros p lc; [reflexivity|].
  cbn [String.length seq fold_left advance_position].
  replace (line_column_step (p ++ String x v ++ rest) lc (String.length p))
    with (if is_lf x then (fst lc + 1, 1) else (fst lc, snd lc + 1)).
  - specialize (IH (p ++ String x "") (if is_lf x then (fst lc + 1, 1) else (fst lc, snd lc + 1))).
    rewrite string_append_assoc, string_length_append in IH. cbn [String.length String.append] in IH.
    now rewrite Nat.add_1_r in IH.
  - unfold line_column_step, JS.char_at. cbn [String.append].
    rewrite get_append_length. destruct lc as [l c]. reflexivity.
Qed.

(** X7. The line and column can be carried along the text instead of being
    counted from its start: for a text made of [pre], [v] and [rest], the
    line and column of the offset after [v] are those of the offset after
    [pre] advanced over the characters of [v]. In particular the line and
    column of the offset after [pre] do not depend on what follows it. *)
Theorem get_line_and_column_incremental (pre v rest : string) :
  get_line_and_column (pre ++ v ++ rest) (JS.length pre + JS.length v)
  = advance_position (get_line_and_column (pre ++ v ++ rest) (JS.length pre)) v
  /\ get_line_and_column (pre ++ rest) (JS.length pre) = advance_position (1, 1) pre.
Proof.
  assert (forall a b, get_line_and_column (a ++ b) (JS.length a)
                      = advance_position (1, 1) a) as Hprefix.
  { intros a b. unfold get_line_and_column, JS.length. rewrite Nat2Z.id.
    apply (fold_line_column_over "" a b). }
  split; [|apply Hprefix].
  unfold get_line_and_column, JS.length.
  rewrite <- Nat2Z.inj_add, !Nat2Z.id, seq_app, fold_left_app.
  apply fold_line_column_over.
Qed.

(** ** The tokens of a whole scan *)














(** ** [stream.next] with the same ignored types, call after call *)

Lemma drained_nil (g : Generator) :
  drained g [] <-> fst (gen_next g) = JS.Done.
Proof.
  unfold drained. rewrite upcoming_S. cbn. split; [now intros [= ->] | now intros ->].
Qed.

Lemma drained_cons (g : Generator) (token : Token) (tokens : list Token) :
  drained g (token :: tokens)
  <-> fst (gen_next g) = JS.Yield token /\ drained (snd (gen_next g)) tokens.
Proof.
  unfold drained. cbn [List.length map app]. rewrite upcoming_S. split.
  - intros [= -> H]. now split.
  - intros [-> ->]. reflexivity.
Qed.

Lemma next_on_drained (ignored_types : list string) (tokens : list Token) :
  forall g fuel, drained g tokens -> (List.length tokens < fuel)%nat ->
  exists s' rest,
    TokenStream_next fuel {| iterator := g |} ignored_types
    = Some (hd_error (filter (kept ignored_types) tokens), s')
    /\ drained (iterator s') rest
    /\ (List.length rest <= List.length tokens)%nat
    /\ filter (kept ignored_types) rest = tl (filter (kept ignored_types) tokens).
Proof.
  induction tokens as [|token tokens IH]; intros g fuel Hd Hfuel;
    (destruct fuel as [|fuel]; [lia|]); cbn [TokenStream_next iterator].
  - apply drained_nil in Hd.
    destruct (gen_next g) as [r g'] eqn:Hg. cbn [fst] in Hd. subst r.
    exists {| iterator := g' |}, []. repeat split; auto.
    rewrite (gen_next_done _ _ Hg). now apply drained_nil.
  - apply drained_cons in Hd. destruct Hd as [Hy Hd].
    destruct (gen_next g) as [r g'] eqn:Hg. cbn [fst snd] in Hy, Hd. subst r.
    cbn [filter].
    change (kept ignored_types token)
      with (negb (JS.includes ignored_types (type token))).
    destruct (JS.includes ignored_types (type token)); cbn [negb hd_error tl].
    + destruct (IH g' fuel Hd ltac:(simpl in Hfuel; lia))
        as (s' & rest & Hnext & Hrest & Hlen & Hfilter).
      exists s', rest. repeat split; auto. simpl. lia.
    + exists {| iterator := g' |}, tokens. repeat split; auto. simpl. lia.
Qed.

(** X11. [stream.next] called again and again with the same ignored types
    goes through the tokens that are left, without those of the ignored
    types and in their order, and then returns [null]: when draining the
    stream's generator would give [tokens], call number [k] (from 0)
    returns the [k]-th of the tokens of [tokens] whose type is not ignored,
    or [null] when there are not that many. *)
Theorem next_calls_filter (s : TokenStream) (ignored_types : list string)
  (tokens : list Token) (fuel n : nat) :
  drained (iterator s) tokens ->
  (List.length tokens < fuel)%nat ->
  next_calls fuel s (repeat ignored_types n)
  = Some (map (nth_error (filter (kept ignored_types) tokens)) (seq 0 n)).
Proof.
  revert s tokens; induction n as [|n IH]; intros [g] tokens Hd Hfuel;
    [reflexivity|].
  cbn [repeat next_calls iterator] in *.
  destruct (next_on_drained ignored_types tokens g fuel Hd Hfuel)
    as (s' & rest & -> & Hrest & Hlen & Hfilter).
  rewrite (IH s' rest Hrest) by lia. cbn [option_map].
  rewrite <- cons_seq, <- seq_shift, Hfilter. cbn [map]. rewrite map_map.
  do 2 f_equal. apply map_ext. intros k.
  now destruct (filter (kept ignored_types) tokens), k.
Qed.

Lemma next_calls_filter_witness :
  next_calls 4 (new_TokenStream " ab" space_word_spec) (repeat ["ws"] 2)
  = Some (map (nth_error
                 (filter (kept ["ws"])
                    [{| type := "ws"; value := " "; line := 1; column := 1 |};
                     {| type := "word"; value := "ab"; line := 1; column := 2 |}]))
              (seq 0 2)).
Proof.
  apply (next_calls_filter (new_TokenStream " ab" space_word_spec) ["ws"]).
  - reflexivity.
  - simpl; lia.
Defined.

(** ** An accepted empty match *)

Lemma empty_match_fixpoint (g : Generator) (token : Token) (g' : Generator) :
  gen_next g = (JS.Yield token, g') -> value token = "" ->
  gen_next g' = (JS.Yield token, g').
Proof.
  intros Hg Hempty.
  destruct (gen_next_yield _ _ _ Hg) as (i & j & _ & Hj & He & ->).
  rewrite gen_next_for_loop. rewrite Hempty.
  cbn [with_state gen_state gen_text gen_spec entry_cursor].
  replace (j + (JS.length "" - 1) + 1) with j by (unfold JS.length; simpl; lia).
  rewrite for_loop_step.
  destruct (Z.ltb_spec j (JS.length (gen_text g))); [|lia].
  rewrite He, Hempty. reflexivity.
Qed.

(** X14. An accepted empty match stalls the generator, whatever the text
    and the specification: once [next] has yielded a token whose value is
    the empty string, every later [next] yields that same token again, so
    the generator never ends and [Array.from] (hence [tokenize]) does not
    return on it. *)
Theorem empty_match_stalls (g : Generator) (n : nat) (token : Token) :
  nth_pull g n = JS.Yield token -> value token = "" ->
  (forall k, nth_pull g (n + k) = JS.Yield token)
  /\ (forall fuel, Array_from fuel (after_pulls n g) = None).
Proof.
  unfold nth_pull. intros Hy Hempty.
  destruct (gen_next (after_pulls n g)) as [r g'] eqn:Hg. cbn [fst] in Hy. subst r.
  pose proof (empty_match_fixpoint _ _ _ Hg Hempty) as Hfix.
  assert (forall k, after_pulls k g' = g') as Hstay.
  { induction k as [|k IH]; [reflexivity|]. cbn [after_pulls]. now rewrite Hfix. }
  split.
  - intros [|k].
    + now rewrite Nat.add_0_r, Hg.
    + replace (n + S k)%nat with (S n + k)%nat by lia.
      rewrite <- after_pulls_add.
      replace (S n) with (n + 1)%nat by lia. rewrite <- after_pulls_add.
      cbn [after_pulls]. now rewrite Hg, Hstay, Hfix.
  - assert (forall fuel, Array_from fuel g' = None) as Hloop.
    { induction fuel as [|fuel IH]; [reflexivity|].
      cbn [Array_from]. now rewrite Hfix, IH. }
    intros [|fuel]; [reflexivity|]. cbn [Array_from]. now rewrite Hg, Hloop.
Qed.

Lemma empty_match_stalls_witness :
  (forall k, nth_pull (token_iterator "a" empty_spec) (0 + k)
             = JS.Yield {| type := "empty"; value := ""; line := 1; column := 1 |})
  /\ (forall fuel,
      Array_from fuel (after_pulls 0 (token_iterator "a" empty_spec)) = None).
Proof.
  apply (empty_match_stalls (token_iterator "a" empty_spec) 0
           {| type := "empty"; value := ""; line := 1; column := 1 |});
    reflexivity.
Defined.

(** ** Iterating over the stream *)

Lemma gen_next_keeps (g : Generator) (st : GenState) :
  with_state (snd (gen_next g)) st = with_state g st.
Proof.
  rewrite gen_next_for_loop. now destruct (entry_cursor (gen_state g)).
Qed.

Lemma Array_from_iteration_started (fuel : nat) (s : TokenStream)
  (w : IterationState) :
  w <> Finished ->
  Array_from_iteration fuel s w
  = option_map
      (fun tokens => (tokens, {| iterator := with_state (iterator s) Completed |}))
      (Array_from fuel (iterator s)).
Proof.
  revert s w; induction fuel as [|fuel IH]; intros [g] w Hw; [reflexivity|].
  cbn [Array_from_iteration Array_from iterator].
  assert (iteration_next {| iterator := g |} w
          = match gen_next g with
            | (JS.Yield token, it') => (JS.Yield token, {| iterator := it' |}, InLoop)
            | (JS.Done, it') => (JS.Done, {| iterator := it' |}, Finished)
            end) as -> by now destruct w.
  pose proof (gen_next_keeps g Completed) as Hkeep.
  destruct (gen_next g) as [[token|] g'] eqn:Hg; cbn [snd] in Hkeep.
  - rewrite (IH {| iterator := g' |} InLoop) by discriminate.
    cbn [iterator]. rewrite Hkeep.
    now destruct (Array_from fuel g').
  - cbn [option_map]. now rewrite (gen_next_done _ _ Hg).
Qed.

(** X12. Iterating over a stream (as [Array.from(stream)] or a complete
    [for ... of] loop does) collects exactly the tokens that are left in the
    stream's generator, in their order and whatever their types, and
    leaves that generator completed; for a stream that has not been read,
    these are the tokens of [tokenize]. *)
Theorem iteration_collects_remaining_tokens (fuel : nat) (s : TokenStream) :
  Array_from_stream fuel s
  = option_map
      (fun tokens => (tokens, {| iterator := with_state (iterator s) Completed |}))
      (Array_from fuel (iterator s))
  /\ forall text spec,
      option_map fst (Array_from_stream fuel (new_TokenStream text spec))
      = tokenize fuel text spec.
Proof.
  split.
  - apply Array_from_iteration_started. discriminate.
  - intros text spec. unfold Array_from_stream.
    rewrite Array_from_iteration_started by discriminate.
    unfold tokenize, new_TokenStream. cbn [iterator].
    now destruct (Array_from fuel (token_iterator text spec)).
Qed.

(** X13. Leaving an iteration over the stream early ends the stream. Once
    the iteration has yielded a token, its [return] (what [break] in a
    [for ... of] loop over the stream calls) completes the stream's
    generator: every later [stream.next] returns [null] and a new iteration
    over the stream collects nothing, although tokens may have been left.
    A [return] before the first [next] leaves the stream as it is. *)
Theorem leaving_iteration_closes_stream (s : TokenStream) (w : IterationState)
  (token : Token) (s' : TokenStream) (w' : IterationState) :
  iteration_next s w = (JS.Yield token, s', w') ->
  let closed := snd (fst (iteration_return s' w')) in
  fst (fst (iteration_return s' w')) = JS.Done
  /\ gen_state (iterator closed) = Completed
  /\ (forall fuel ignored_types,
      TokenStream_next (S fuel) closed ignored_types = Some (None, closed))
  /\ (forall fuel, Array_from_stream (S fuel) closed = Some ([], closed))
  /\ iteration_return s NotStarted = (JS.Done, s, Finished).
Proof.
  intros Hnext.
  assert (w' = InLoop) as ->.
  { destruct w; cbn in Hnext; try discriminate;
      destruct (gen_next (iterator s)) as [[t|] it']; now inversion Hnext. }
  destruct s' as [g']. cbn. repeat split.
Qed.

Lemma leaving_iteration_closes_stream_witness :
  let s' := {| iterator := snd (gen_next (token_iterator "a b" word_spec)) |} in
  let closed := snd (fst (iteration_return s' InLoop)) in
  fst (fst (iteration_return s' InLoop)) = JS.Done
  /\ gen_state (iterator closed) = Completed
  /\ (forall fuel ignored_types,
      TokenStream_next (S fuel) closed ignored_types = Some (None, closed))
  /\ (forall fuel, Array_from_stream (S fuel) closed = Some ([], closed))
  /\ iteration_return (new_TokenStream "a b" word_spec) NotStarted
     = (JS.Done, new_TokenStream "a b" word_spec, Finished).
Proof.
  apply (leaving_iteration_closes_stream (new_TokenStream "a b" word_spec) NotStarted
           {| type := "word"; value := "a"; line := 1; column := 1 |}).
  reflexivity.
Defined.

(** ** Instances of the properties above on concrete inputs *)



